(** * Verification of the job-orchestration core of poi_downloader

    Shallow embedding of the Python crawlers:
    - [Admission]   : [DynamicResourceScheduler] (parallel_poi_crawler_turbo.py)
    - [Dispatch]    : [ChromeWorker.run] / [SimplePOICrawler.process_results]
                      (poi_crawler_simple.py)
    - [Resume]      : checkpoint save / resume of [SimplePOICrawler]
    - [Pool]        : [ChromeDriverPool] (parallel_poi_crawler_turbo.py)
    - [Sink]        : [DataSaveWorker], [AsyncDataSaveManager] and the
                      submission loop of [crawl_from_csv_async]
    - [Checkpoint]  : the file writes of the [_save_progress] variants *)

From Stdlib Require Import List Bool Arith Lia ZArith QArith Lqa String Sorted.
Import ListNotations.

(* ------------------------------------------------------------------ *)
(** ** Admission control: [DynamicResourceScheduler] *)

Module Admission.

(** Floats are compared with exact thresholds only; they are modelled
    as rationals. [x > y] in Python. *)
Definition gtb (x y : Q) : bool := negb (Qle_bool x y).
(** [x < y] in Python. *)
Definition ltb (x y : Q) : bool := negb (Qle_bool y x).

(** The dict returned by [monitor_system_resources], restricted to the
    three keys the scheduler reads. *)
Record resources := mkResources {
  system_memory_percent : Q;
  cpu_percent : Q;
  load_average : Q
}.

Record scheduler := mkScheduler {
  check_interval : Z;
  is_paused : bool;
  last_check_time : Z;
  pause_count : nat;
  resume_count : nat
}.

(** Thresholds set in [__init__], and the two literals of the
    decision functions. *)
Definition memory_high_threshold : Q := 85.
Definition memory_low_threshold : Q := 60.
Definition cpu_high_threshold : Q := 90.
Definition cpu_low_threshold : Q := 70.
Definition load_high_threshold : Q := 8.
Definition memory_critical : Q := 90.
Definition load_low_literal : Q := 6.

(** [__init__]: initial state, feeding allowed. *)
Definition init (interval : Z) : scheduler :=
  mkScheduler interval false 0 0 0.

(** [_should_pause_scheduling] *)
Definition should_pause_scheduling (r : resources) : bool :=
  let memory_overload := gtb (system_memory_percent r) memory_high_threshold in
  let cpu_overload := gtb (cpu_percent r) cpu_high_threshold in
  let load_overload := gtb (load_average r) load_high_threshold in
  let critical_conditions :=
    (Nat.b2n memory_overload + Nat.b2n cpu_overload + Nat.b2n load_overload)%nat in
  Nat.leb 2 critical_conditions || gtb (system_memory_percent r) memory_critical.

(** [_should_resume_scheduling] *)
Definition should_resume_scheduling (s : scheduler) (r : resources) : bool :=
  if negb (is_paused s) then false
  else
    let memory_ok := ltb (system_memory_percent r) memory_low_threshold in
    let cpu_ok := ltb (cpu_percent r) cpu_low_threshold in
    let load_ok := ltb (load_average r) load_low_literal in
    memory_ok && cpu_ok && load_ok.

(** [_pause_scheduling] and [_resume_scheduling] (the feeding event
    is the negation of [is_paused]). *)
Definition pause_scheduling (s : scheduler) : scheduler :=
  mkScheduler (check_interval s) true (last_check_time s)
    (S (pause_count s)) (resume_count s).

Definition resume_scheduling (s : scheduler) : scheduler :=
  mkScheduler (check_interval s) false (last_check_time s)
    (pause_count s) (S (resume_count s)).

Definition set_last_check (s : scheduler) (t : Z) : scheduler :=
  mkScheduler (check_interval s) (is_paused s) t
    (pause_count s) (resume_count s).

(** [check_and_adjust_schedule]: [current_time] is [time.time()],
    [sample] the value of [monitor_system_resources()] ([None] when it
    failed).  Returns the new state; the method's result is its
    [is_paused]. *)
Definition check_and_adjust_schedule
    (s : scheduler) (current_time : Z) (sample : option resources)
    : scheduler :=
  if (current_time - last_check_time s <? check_interval s)%Z then s
  else
    let s := set_last_check s current_time in
    match sample with
    | None => s
    | Some r =>
        let should_pause := should_pause_scheduling r in
        let should_resume := should_resume_scheduling s r in
        if should_pause && negb (is_paused s) then pause_scheduling s
        else if should_resume && is_paused s then resume_scheduling s
        else s
    end.

(** The sampling tick actually reads metrics. *)
Definition sampled (s : scheduler) (current_time : Z) : Prop :=
  (check_interval s <= current_time - last_check_time s)%Z.

(** The transition conditions, in terms of the order on Q: at least
    two of the three metrics above their high-water marks, or memory
    above the hard ceiling; all three below their low-water marks. *)
Definition pause_condition (r : resources) : Prop :=
  (memory_high_threshold < system_memory_percent r
     /\ cpu_high_threshold < cpu_percent r)
  \/ (memory_high_threshold < system_memory_percent r
     /\ load_high_threshold < load_average r)
  \/ (cpu_high_threshold < cpu_percent r
     /\ load_high_threshold < load_average r)
  \/ memory_critical < system_memory_percent r.

Definition resume_condition (r : resources) : Prop :=
  system_memory_percent r < memory_low_threshold
  /\ cpu_percent r < cpu_low_threshold
  /\ load_average r < load_low_literal.

End Admission.

Open Scope nat_scope.

(* ------------------------------------------------------------------ *)
(** ** Task dispatch of the simple crawler: [ChromeWorker.run] and
       [SimplePOICrawler.process_results] (poi_crawler_simple.py) *)

Module Dispatch.

(** A task dict: [{'address', 'index', 'original_address', 'is_retry'}].
    [original_address] is [None] when the CSV has no [Address] value. *)
Record task := mkTask {
  address : string;
  index : nat;
  original_address : option string;
  is_retry : bool
}.

(** The part of [crawl_poi_info]'s dict that the core inspects:
    [status == 'success'] and [result_type]. *)
Record crawl_result := mkCrawl {
  status_success : bool;
  crawl_result_type : string
}.

(** The result dict built by [process_task]. *)
Record result := mkResult {
  success : bool;
  result_type : string;
  r_address : string;
  r_original_address : option string;
  r_index : nat;
  r_is_retry : bool
}.

Inductive task_source := FromRetry | FromMain.

(** [queue.Queue] is FIFO: [put] appends, [get] takes the head. *)
Definition put {A} (q : list A) (x : A) : list A := q ++ [x].

(** Task selection in [ChromeWorker.run]: [retry_queue.get_nowait()]
    first; on [queue.Empty], [task_queue.get(timeout=1.0)], whose own
    [queue.Empty] makes the loop [continue] ([None] here). *)
Definition next_task (retry_queue task_queue : list task)
    : option (task * task_source * list task * list task) :=
  match retry_queue with
  | t :: rq => Some (t, FromRetry, rq, task_queue)
  | [] =>
      match task_queue with
      | t :: tq => Some (t, FromMain, [], tq)
      | [] => None
      end
  end.

(** Python's [set.add] on a set of indices / strings. *)
Definition set_add_nat (x : nat) (s : list nat) : list nat :=
  if existsb (Nat.eqb x) s then s else x :: s.
Definition set_add_str (x : string) (s : list string) : list string :=
  if existsb (String.eqb x) s then s else x :: s.

(** Truthiness of [result.get('original_address')]. *)
Definition truthy (o : option string) : bool :=
  match o with
  | Some a => negb (String.eqb a EmptyString)
  | None => false
  end.

Definition invalid_address : string := "invalid_address"%string.

(** The escalation test of [process_results]. *)
Definition should_retry (r : result) (retry_cache : list string) : bool :=
  match r_original_address r with
  | Some o =>
      success r
      && String.eqb (result_type r) invalid_address
      && truthy (r_original_address r)
      && negb (String.eqb (r_address r) o)
      && negb (r_is_retry r)
      && negb (existsb (String.eqb o) retry_cache)
  | None => false
  end.

(** The retry task built by [process_results]. *)
Definition retry_task (r : result) (o : string) : task :=
  mkTask o (r_index r) (Some o) true.

(** Crawler state shared by the worker threads and the result thread.
    [outcomes] lists the results consumed by [process_results], in
    order. *)
Record state := mkState {
  task_queue : list task;
  retry_queue : list task;
  result_queue : list result;
  outcomes : list result;
  retry_cache : list string;
  processed_indices : list nat;
  processed_tasks : nat;
  success_count : nat;
  error_count : nat;
  total_tasks : nat
}.

(** State after [_setup_file_processing] with no checkpoint and the
    addresses put on [task_queue] by [process_single_file]. *)
Definition start (addresses : list task) : state :=
  mkState addresses [] [] [] [] [] 0 0 0 (List.length addresses).

Section WithCollaborator.

(** [ChromeWorker.crawl_poi_info(address, is_retry)]: the site
    specific extraction, which catches its own exceptions. *)
Variable crawl_poi_info : string -> bool -> crawl_result.

(** [ChromeWorker.process_task] *)
Definition process_task (t : task) : result :=
  let res := crawl_poi_info (address t) (is_retry t) in
  mkResult (status_success res) (crawl_result_type res)
    (address t) (original_address t) (index t) (is_retry t).

(** One iteration of the [ChromeWorker.run] loop. *)
Definition worker_step (s : state) : state :=
  match next_task (retry_queue s) (task_queue s) with
  | None => s
  | Some (t, _, rq, tq) =>
      mkState tq rq (put (result_queue s) (process_task t))
        (outcomes s) (retry_cache s) (processed_indices s)
        (processed_tasks s) (success_count s) (error_count s)
        (total_tasks s)
  end.

(** One iteration of the [process_results] loop. *)
Definition processor_step (s : state) : state :=
  match result_queue s with
  | [] => s
  | r :: rest =>
      let pi := if negb (r_is_retry r)
                then set_add_nat (r_index r) (processed_indices s)
                else processed_indices s in
      let sc := if success r then S (success_count s) else success_count s in
      let ec := if success r then error_count s else S (error_count s) in
      match r_original_address r with
      | Some o =>
          if should_retry r (retry_cache s) then
            mkState (task_queue s) (put (retry_queue s) (retry_task r o))
              rest (put (outcomes s) r) (set_add_str o (retry_cache s)) pi
              (S (processed_tasks s)) sc ec (S (total_tasks s))
          else
            mkState (task_queue s) (retry_queue s) rest (put (outcomes s) r)
              (retry_cache s) pi (S (processed_tasks s)) sc ec
              (total_tasks s)
      | None =>
          mkState (task_queue s) (retry_queue s) rest (put (outcomes s) r)
            (retry_cache s) pi (S (processed_tasks s)) sc ec
            (total_tasks s)
      end
  end.

(** The threads interleave arbitrarily: a schedule says which one
    runs next. *)
Inductive actor := Worker | Processor.

Definition step (a : actor) (s : state) : state :=
  match a with
  | Worker => worker_step s
  | Processor => processor_step s
  end.

Fixpoint run (sched : list actor) (s : state) : state :=
  match sched with
  | [] => s
  | a :: rest => run rest (step a s)
  end.

(** All queues are empty: the batch has drained. *)
Definition drained (s : state) : bool :=
  match task_queue s, retry_queue s, result_queue s with
  | [], [], [] => true
  | _, _, _ => false
  end.

End WithCollaborator.

(** Counting by job index. *)
Definition count_tasks (i : nat) (l : list task) : nat :=
  List.length (filter (fun t => Nat.eqb (index t) i) l).
Definition count_first_tasks (i : nat) (l : list task) : nat :=
  List.length (filter (fun t => Nat.eqb (index t) i && negb (is_retry t)) l).
Definition count_results (i : nat) (l : list result) : nat :=
  List.length (filter (fun r => Nat.eqb (r_index r) i) l).
Definition count_first_results (i : nat) (l : list result) : nat :=
  List.length (filter (fun r => Nat.eqb (r_index r) i && negb (r_is_retry r)) l).
Definition count_retry_tasks (i : nat) (l : list task) : nat :=
  List.length (filter (fun t => Nat.eqb (index t) i && is_retry t) l).
Definition count_retry_results (i : nat) (l : list result) : nat :=
  List.length (filter (fun r => Nat.eqb (r_index r) i && r_is_retry r) l).

End Dispatch.

(* ------------------------------------------------------------------ *)
(** ** Checkpoint contents and resume of the simple crawler
       ([_get_last_processed_index], [_save_progress], [_load_progress],
       [_setup_file_processing] in poi_crawler_simple.py) *)

Module Resume.
Import Dispatch.

(** The JSON progress record (fields used on resume). *)
Record progress := mkProgress {
  p_file_name : string;
  p_last_processed_index : option Z;  (** [None]: key absent *)
  p_processed_tasks : nat;
  p_total_tasks : nat
}.

(** [_get_last_processed_index]: [max(processed_indices)], or -1. *)
Definition get_last_processed_index (processed_indices : list nat) : Z :=
  match processed_indices with
  | [] => (-1)%Z
  | _ => Z.of_nat (list_max processed_indices)
  end.

(** The record written by [_save_progress]. *)
Definition save_progress (file_name : string) (s : state) : progress :=
  mkProgress file_name (Some (get_last_processed_index (processed_indices s)))
    (processed_tasks s) (total_tasks s).

(** [_load_progress]: the stored record is accepted only for the same
    file name. *)
Definition load_progress (file_name : string) (stored : option progress)
    : option progress :=
  match stored with
  | Some p => if String.eqb (p_file_name p) file_name then Some p else None
  | None => None
  end.

(** [progress_data.get('last_processed_index', -1)] *)
Definition last_index (p : progress) : Z :=
  match p_last_processed_index p with
  | Some z => z
  | None => (-1)%Z
  end.

(** [set(range(0, last_processed_index + 1))] *)
Definition rebuilt_indices (last : Z) : list nat :=
  if (0 <=? last)%Z then seq 0 (Z.to_nat (last + 1)) else [].

(** [_setup_file_processing]: the addresses fed to [task_queue] and the
    rebuilt [processed_indices]; [None] when the method returns [None]
    (no address, or nothing left to do). *)
Definition setup_file_processing (file_name : string)
    (addresses : list task) (stored : option progress)
    : option (list task * list nat) :=
  match addresses with
  | [] => None
  | _ =>
      match load_progress file_name stored with
      | Some p =>
          let last := last_index p in
          let remaining :=
            filter (fun a => (last <? Z.of_nat (index a))%Z) addresses in
          match remaining with
          | [] => None
          | _ => Some (remaining, rebuilt_indices last)
          end
      | None => Some (addresses, [])
      end
  end.

End Resume.

(* ------------------------------------------------------------------ *)
(** ** The driver pool: [ChromeDriverPool] (parallel_poi_crawler_turbo.py)

    Drivers are named by numbers.  Besides the pool's own fields the
    state records which drivers are running Chrome processes ([live]:
    created and not yet quit) and which have crashed ([broken]: their
    [window_handles] / [get] raise); [next_id] names the next driver
    [create_optimized_driver] returns. *)

Module Pool.

Definition driver := nat.

Record pool := mkPool {
  max_drivers : nat;
  free : list driver;                       (** [self.pool], a deque *)
  total_created : nat;
  driver_usage_count : list (driver * nat);  (** dict driver -> count *)
  driver_max_tasks : nat;
  live : list driver;
  broken : list driver;
  next_id : nat
}.

(** [ChromeDriverPool(max_drivers)] *)
Definition init (n : nat) : pool := mkPool n [] 0 [] 100 [] [] 0.

Definition mem (d : driver) (l : list driver) : bool := existsb (Nat.eqb d) l.
Definition remove_all (d : driver) (l : list driver) : list driver :=
  filter (fun x => negb (Nat.eqb x d)) l.

Definition with_free (s : pool) (f : list driver) : pool :=
  mkPool (max_drivers s) f (total_created s) (driver_usage_count s)
    (driver_max_tasks s) (live s) (broken s) (next_id s).
Definition with_total (s : pool) (n : nat) : pool :=
  mkPool (max_drivers s) (free s) n (driver_usage_count s)
    (driver_max_tasks s) (live s) (broken s) (next_id s).
Definition with_counts (s : pool) (c : list (driver * nat)) : pool :=
  mkPool (max_drivers s) (free s) (total_created s) c
    (driver_max_tasks s) (live s) (broken s) (next_id s).

(** [driver.quit()]: the Chrome process ends; a second [quit] raises,
    which every caller swallows. *)
Definition quit (s : pool) (d : driver) : pool :=
  mkPool (max_drivers s) (free s) (total_created s) (driver_usage_count s)
    (driver_max_tasks s) (remove_all d (live s)) (broken s) (next_id s).

(** [create_optimized_driver] (the successful case). *)
Definition create (s : pool) : driver * pool :=
  let d := next_id s in
  (d, mkPool (max_drivers s) (free s) (total_created s) (driver_usage_count s)
        (driver_max_tasks s) (d :: live s) (broken s) (S d)).

(** A Chrome process crashes: its health probe fails from now on. *)
Definition crash (s : pool) (d : driver) : pool :=
  mkPool (max_drivers s) (free s) (total_created s) (driver_usage_count s)
    (driver_max_tasks s) (live s) (d :: broken s) (next_id s).

(** The health probe [driver.window_handles] succeeds. *)
Definition healthy (s : pool) (d : driver) : bool :=
  mem d (live s) && negb (mem d (broken s)).

(** The [while self.pool] loop of [get_driver]: pop, probe, and quit a
    driver whose probe fails. *)
Fixpoint drain_free (fuel : list driver) (s : pool) : option driver * pool :=
  match fuel with
  | [] => (None, s)
  | _ :: fuel' =>
      match free s with
      | [] => (None, s)
      | d :: rest =>
          let s := with_free s rest in
          if healthy s d then (Some d, s)
          else drain_free fuel' (quit s d)
      end
  end.

(** [get_driver] *)
Definition get_driver (s : pool) : option driver * pool :=
  match drain_free (free s) s with
  | (Some d, s) => (Some d, s)
  | (None, s) =>
      if total_created s <? max_drivers s then
        let '(d, s) := create s in
        (Some d, with_total s (S (total_created s)))
      else (None, s)
  end.

(** [return_driver]: [driver.get("data:,")] then append; if that call
    raises, [_force_quit_driver] (the count is left alone). *)
Definition return_driver (s : pool) (d : driver) : pool :=
  if healthy s d then with_free s (free s ++ [d]) else quit s d.

(** [release_driver]: remove from the deque, quit, and
    [total_created = max(0, total_created - 1)]. *)
Definition release_driver (s : pool) (d : driver) : pool :=
  let s := with_free s (remove_all d (free s)) in
  let s := quit s d in
  with_total s (total_created s - 1).

Fixpoint lookup (d : driver) (c : list (driver * nat)) : option nat :=
  match c with
  | [] => None
  | (k, v) :: c' => if Nat.eqb k d then Some v else lookup d c'
  end.

Definition assign (d : driver) (v : nat) (c : list (driver * nat))
    : list (driver * nat) :=
  (d, v) :: filter (fun kv => negb (Nat.eqb (fst kv) d)) c.

Definition unassign (d : driver) (c : list (driver * nat))
    : list (driver * nat) :=
  filter (fun kv => negb (Nat.eqb (fst kv) d)) c.

(** [increment_driver_usage]: returns whether a restart is needed. *)
Definition increment_driver_usage (s : pool) (d : driver) : bool * pool :=
  match lookup d (driver_usage_count s) with
  | Some n =>
      let s := with_counts s (assign d (S n) (driver_usage_count s)) in
      (driver_max_tasks s <=? S n, s)
  | None => (false, with_counts s (assign d 1 (driver_usage_count s)))
  end.

(** [restart_driver(old_driver, worker_id)] *)
Definition restart_driver (s : pool) (old : driver) (worker_id : option nat)
    : option driver * pool :=
  let s := quit s old in
  let s := with_counts s (unassign old (driver_usage_count s)) in
  if total_created s <? max_drivers s then
    let '(d, s) := create s in
    match worker_id with
    | Some (S _) => (Some d, with_counts s (assign d 0 (driver_usage_count s)))
    | _ => (Some d, s)
    end
  else (None, s).

(** Calls made on the pool by its clients, and crashes of Chrome. *)
Inductive op :=
| Acquire
| Return (d : driver)
| Retire (d : driver)
| Increment (d : driver)
| Restart (d : driver) (worker_id : option nat)
| Crash (d : driver).

Definition exec (s : pool) (o : op) : pool :=
  match o with
  | Acquire => snd (get_driver s)
  | Return d => return_driver s d
  | Retire d => release_driver s d
  | Increment d => snd (increment_driver_usage s d)
  | Restart d w => snd (restart_driver s d w)
  | Crash d => crash s d
  end.

Definition run (s : pool) (ops : list op) : pool := fold_left exec ops s.

(** Number of drivers with a running Chrome process. *)
Definition live_count (s : pool) : nat := List.length (live s).

End Pool.

(** [HybridDriverPool.get_driver] (parallel_poi_crawler_hybrid.py), the
    sibling pool: its cap is [len(usage_count)], and a driver failing its
    probe is popped from [usage_count]. *)

Module HybridPool.
Import Pool.

Record hpool := mkHPool {
  h_max_drivers : nat;
  h_free : list driver;
  usage_count : list (driver * nat);
  max_usage_per_driver : nat;
  h_live : list driver;
  h_broken : list driver;
  h_next_id : nat
}.

Definition h_healthy (s : hpool) (d : driver) : bool :=
  mem d (h_live s) && negb (mem d (h_broken s)).

Definition h_drop (s : hpool) (rest : list driver) (d : driver) : hpool :=
  mkHPool (h_max_drivers s) rest (unassign d (usage_count s))
    (max_usage_per_driver s) (remove_all d (h_live s)) (h_broken s)
    (h_next_id s).

Fixpoint h_drain (fuel : list driver) (s : hpool) : option driver * hpool :=
  match fuel with
  | [] => (None, s)
  | _ :: fuel' =>
      match h_free s with
      | [] => (None, s)
      | d :: rest =>
          let n := match lookup d (usage_count s) with Some n => n | None => 0 end in
          if (n <? max_usage_per_driver s) && h_healthy s d then
            (Some d, mkHPool (h_max_drivers s) rest
                       (assign d (S n) (usage_count s))
                       (max_usage_per_driver s) (h_live s) (h_broken s)
                       (h_next_id s))
          else h_drain fuel' (h_drop s rest d)
      end
  end.

Definition h_get_driver (s : hpool) : option driver * hpool :=
  match h_drain (h_free s) s with
  | (Some d, s) => (Some d, s)
  | (None, s) =>
      if List.length (usage_count s) <? h_max_drivers s then
        let d := h_next_id s in
        (Some d, mkHPool (h_max_drivers s) (h_free s)
                   (assign d 1 (usage_count s)) (max_usage_per_driver s)
                   (d :: h_live s) (h_broken s) (S d))
      else (None, s)
  end.

(** [HybridDriverPool.return_driver] for a known driver. *)
Definition h_return (s : hpool) (d : driver) : hpool :=
  match lookup d (usage_count s) with
  | Some _ =>
      mkHPool (h_max_drivers s) (h_free s ++ [d]) (usage_count s)
        (max_usage_per_driver s) (h_live s) (h_broken s) (h_next_id s)
  | None =>
      mkHPool (h_max_drivers s) (h_free s) (usage_count s)
        (max_usage_per_driver s) (remove_all d (h_live s)) (h_broken s)
        (h_next_id s)
  end.

Definition h_crash (s : hpool) (d : driver) : hpool :=
  mkHPool (h_max_drivers s) (h_free s) (usage_count s)
    (max_usage_per_driver s) (h_live s) (d :: h_broken s) (h_next_id s).

End HybridPool.

(* ------------------------------------------------------------------ *)
(** ** The result sink: [DataSaveWorker.save_worker_process],
       [ResultBuffer._flush_to_disk] and the submission path of
       [crawl_from_csv_async] with [AsyncDataSaveManager] *)

Module Sink.

(** A POI row.  [lat]/[lng] are floats compared by value, written as
    exact integer codes; [None] is NaN (pandas' [drop_duplicates]
    treats two NaNs as equal).  [other] stands for the remaining
    columns (rating, class, ...). *)
Record row := mkRow {
  name : string;
  lat : option Z;
  lng : option Z;
  other : string
}.

(** [dedup_columns = ['name', 'lat', 'lng']] *)
Definition key := (string * option Z * option Z)%type.
Definition row_key (r : row) : key := (name r, lat r, lng r).

Definition opt_eqb (a b : option Z) : bool :=
  match a, b with
  | Some x, Some y => Z.eqb x y
  | None, None => true
  | _, _ => false
  end.

Definition key_eqb (k1 k2 : key) : bool :=
  let '(n1, a1, b1) := k1 in
  let '(n2, a2, b2) := k2 in
  String.eqb n1 n2 && opt_eqb a1 a2 && opt_eqb b1 b2.

(** [drop_duplicates(subset=dedup_columns, keep='first')]: a row is
    kept when no earlier row of the frame has the same key. *)
Fixpoint drop_duplicates_from (seen : list key) (rows : list row) : list row :=
  match rows with
  | [] => []
  | r :: rs =>
      if existsb (key_eqb (row_key r)) seen
      then drop_duplicates_from seen rs
      else r :: drop_duplicates_from (row_key r :: seen) rs
  end.

Definition drop_duplicates (rows : list row) : list row :=
  drop_duplicates_from [] rows.

(** How the [try] block around a write ends: [Done], or an exception
    raised once the first [k] rows of the frame being written have
    reached the file ([k = 0]: raised before the file is touched, in
    [pd.concat], in [drop_duplicates] or when opening the file; larger
    [k]: [to_csv] failing part-way, e.g. on a full disk).  A file is the
    list of its data rows. *)
Inductive write_outcome :=
| Done
| Raised (k : nat).

(** The rows that reach the file when [rows] are written. *)
Definition written (outcome : write_outcome) (rows : list row) : list row :=
  match outcome with
  | Done => rows
  | Raised k => firstn k rows
  end.

(** One batch taken from [save_queue] by the save process: concat the
    frames (which carry the [name], [lat] and [lng] columns, so
    [existing_columns] is the whole subset), deduplicate, append to the
    CSV ([mode='a']); an exception
    is caught by [except Exception: continue] and the process goes on
    with the next batch. *)
Definition save_worker_batch (file : list row) (data_batch : list (list row))
    (outcome : write_outcome) : list row :=
  match data_batch with
  | [] => file
  | _ =>
      let combined_df := List.concat data_batch in
      let combined_df := drop_duplicates combined_df in
      file ++ written outcome combined_df
  end.

(** The save process over the batches it takes, in order. *)
Definition save_worker_process (file : list row)
    (batches : list (list (list row) * write_outcome)) : list row :=
  fold_left (fun file bo => save_worker_batch file (fst bo) (snd bo)) batches file.

(** The submitting side.  [save_queue] holds the batches (lists of
    frames) not yet taken by the save process; [qsize_supported] is
    false on platforms where [multiprocessing.Queue.qsize] raises
    [NotImplementedError], where [get_queue_size] returns 0. *)
Record manager := mkManager {
  is_running : bool;
  save_queue : list (list (list row));
  max_queue_size : nat;
  qsize_supported : bool
}.

Definition enqueue (m : manager) (data_batch : list (list row)) : manager :=
  mkManager (is_running m) (save_queue m ++ [data_batch]) (max_queue_size m)
    (qsize_supported m).

Definition queue_full (m : manager) : bool :=
  max_queue_size m <=? List.length (save_queue m).

(** The save process takes the head batch of the queue and writes it. *)
Definition consume (fm : list row * manager) (outcome : write_outcome)
    : list row * manager :=
  let '(file, m) := fm in
  match save_queue m with
  | [] => (file, m)
  | b :: rest =>
      (save_worker_batch file b outcome,
       mkManager (is_running m) rest (max_queue_size m) (qsize_supported m))
  end.

(** What happens during [save_queue.put(data_batch, timeout=5.0)]:
    [PutRaises] is an exception other than [queue.Full] (e.g. the
    [ValueError] of a closed queue); with [PutWaits taken], a put on a
    full queue blocks while the save process takes and writes the head
    batches, one per element of [taken] (with that write's outcome),
    and raises [queue.Full] if the queue is still full when the timeout
    expires.  A put on a queue with room returns at once. *)
Inductive put_event :=
| PutRaises
| PutWaits (taken : list write_outcome).

(** [AsyncDataSaveManager.save_batch_async]; the state is the output
    file and the manager. *)
Definition save_batch_async (fm : list row * manager) (data_batch : list (list row))
    (ev : put_event) : bool * (list row * manager) :=
  let '(file, m) := fm in
  if negb (is_running m) then (false, fm)
  else
    match data_batch with
    | [] => (false, fm)
    | _ =>
        match ev with
        | PutRaises => (false, fm)
        | PutWaits taken =>
            if negb (queue_full m) then (true, (file, enqueue m data_batch))
            else
              let '(file', m') := fold_left consume taken (file, m) in
              if queue_full m' then (false, (file', m'))
              else (true, (file', enqueue m' data_batch))
        end
    end.

(** [AsyncDataSaveManager.get_queue_size] *)
Definition get_queue_size (m : manager) : nat :=
  if qsize_supported m then List.length (save_queue m) else 0.

(** The [if batch_data:] block at the end of each batch iteration of
    [crawl_from_csv_async]; [batch_data] is the list of frames of the
    batch. *)
Definition submit_step (batch_data : list (list row)) (fm : list row * manager)
    (ev : put_event) : list (list row) * (list row * manager) :=
  match batch_data with
  | [] => (batch_data, fm)
  | _ =>
      let '(save_success, fm) := save_batch_async fm batch_data ev in
      if save_success then ([], fm)
      else if get_queue_size (snd fm) <? 10 then ([], fm)
      else (batch_data, fm)
  end.

End Sink.

(* ------------------------------------------------------------------ *)
(** ** Checkpoint files: [_save_progress_async] (turbo) and the direct
       [_save_progress] writes (hybrid, turbo sync, simple) *)

Module Checkpoint.

(** The file system: paths to contents; [None] when no file. *)
Definition fs := list (string * string).

Fixpoint read (f : fs) (p : string) : option string :=
  match f with
  | [] => None
  | (q, c) :: f' => if String.eqb q p then Some c else read f' p
  end.

Definition set (f : fs) (p : string) (c : string) : fs :=
  (p, c) :: filter (fun qc => negb (String.eqb (fst qc) p)) f.

Definition unset (f : fs) (p : string) : fs :=
  filter (fun qc => negb (String.eqb (fst qc) p)) f.

(** System calls issued by the writes. *)
Inductive io :=
| OpenWrite (p : string)       (** [open(p, 'w')]: create or truncate *)
| WriteChunk (p : string) (s : string)  (** one buffered write *)
| Rename (src dst : string).   (** [os.rename], atomic *)

Definition exec (f : fs) (o : io) : fs :=
  match o with
  | OpenWrite p => set f p EmptyString
  | WriteChunk p s =>
      match read f p with
      | Some c => set f p (String.append c s)
      | None => set f p s
      end
  | Rename src dst =>
      match read f src with
      | Some c => set (unset f src) dst c
      | None => f
      end
  end.

Definition run (f : fs) (ops : list io) : fs := fold_left exec ops f.

(** [json.dump] into an open file: the serialized record, in chunks. *)
Definition dump (p : string) (chunks : list string) : list io :=
  map (WriteChunk p) chunks.

(** [_save_progress] of the hybrid (and turbo sync) crawler:
    [with open(self.progress_file, 'w') as f: json.dump(...)]. *)
Definition save_progress (progress_file : string) (chunks : list string)
    : list io :=
  OpenWrite progress_file :: dump progress_file chunks.

(** [_save_progress_async]: write [progress_file + ".tmp"], then
    [os.rename] it over [progress_file]. *)
Definition temp_file (progress_file : string) : string :=
  String.append progress_file ".tmp".

Definition save_progress_async (progress_file : string) (chunks : list string)
    : list io :=
  OpenWrite (temp_file progress_file)
    :: dump (temp_file progress_file) chunks
    ++ [Rename (temp_file progress_file) progress_file].

(** What a complete [json.dump] leaves in a freshly opened file. *)
Definition contents (chunks : list string) : string :=
  fold_left String.append chunks EmptyString.

(** A crash after the first [k] calls of a save. *)
Definition crash_after (f : fs) (ops : list io) (k : nat) : fs :=
  run f (firstn k ops).

End Checkpoint.

(* ------------------------------------------------------------------ *)
(** ** Output files of the turbo / hybrid crawlers:
       [_batch_append_to_output_file], [_final_deduplication] and the
       writing side of [collect_results] (parallel_poi_crawler_hybrid.py) *)

Module Output.
Import Sink.

(** A result's [data]: [None] when it is [None] or not a DataFrame;
    otherwise whether the frame has every column of [required_cols]
    and its rows. *)
Record frame := mkFrame {
  has_required_cols : bool;
  frame_rows : list row
}.

Definition rows_of (data : option frame) : list row :=
  match data with
  | Some f => frame_rows f
  | None => []
  end.

(** [data is not None and isinstance(data, pd.DataFrame) and not data.empty] *)
Definition nonempty_frame (data : option frame) : bool :=
  match data with
  | Some f => match frame_rows f with [] => false | _ => true end
  | None => false
  end.

(** ... [and all(col in data.columns for col in required_cols)] *)
Definition valid_frame (data : option frame) : bool :=
  nonempty_frame data
  && match data with Some f => has_required_cols f | None => false end.

(** [_batch_append_to_output_file]; the output CSV is [None] while
    [self.output_file is None], else the list of its data rows.  An
    exception in the [try] block (concat, deduplication or [to_csv]) is
    caught, logged as a warning, and the rest of the batch is not
    written. *)
Definition batch_append_to_output_file (output_file : option (list row))
    (data_list : list (option frame)) (outcome : write_outcome) : option (list row) :=
  match output_file with
  | None => None
  | Some file =>
      match data_list with
      | [] => Some file
      | _ =>
          let valid_data := filter valid_frame data_list in
          match valid_data with
          | [] => Some file
          | _ =>
              let combined_df := List.concat (map rows_of valid_data) in
              let combined_df := drop_duplicates combined_df in
              match combined_df with
              | [] => Some file
              | _ => Some (file ++ written outcome combined_df)
              end
          end
      end
  end.

(** How the [try] block of [_final_deduplication] ends: [DedupDone];
    [RaisedBeforeWrite], an exception in [read_csv] or
    [drop_duplicates], the file untouched; [RaisedInWrite k], an
    exception in [to_csv] (mode ['w'], which truncates the file first)
    once [k] rows of the deduplicated frame have been written. *)
Inductive dedup_outcome :=
| DedupDone
| RaisedBeforeWrite
| RaisedInWrite (k : nat).

(** [_final_deduplication]: read the CSV, deduplicate on
    [['name', 'lat', 'lng']], and rewrite it only when rows were
    removed. *)
Definition final_deduplication (output_file : option (list row))
    (outcome : dedup_outcome) : option (list row) :=
  match output_file with
  | None => None
  | Some df =>
      match outcome with
      | RaisedBeforeWrite => Some df
      | _ =>
          let original_count := List.length df in
          let df_deduped := drop_duplicates df in
          let final_count := List.length df_deduped in
          if final_count <? original_count then
            match outcome with
            | RaisedInWrite k => Some (firstn k df_deduped)
            | _ => Some df_deduped
            end
          else Some df
      end
  end.

(** The part of a result dict [collect_results] reads. *)
Record hresult := mkHResult {
  h_success : bool;
  h_data : option frame
}.

(** The writing side of [collect_results]: a successful result with a
    non-empty frame joins [batch_data]; [batch_data] is written when it
    holds 20 frames or when the 5 s timer has expired (the [bool] paired
    with each result says whether it had; the [write_outcome] is the
    outcome of the write made at that result, if any); what is left is
    written after the loop, with outcome [last]. *)
Fixpoint collect (last : write_outcome) (output_file : option (list row))
    (batch_data : list (option frame)) (results : list (hresult * bool * write_outcome))
    : option (list row) :=
  match results with
  | [] =>
      match batch_data with
      | [] => output_file
      | _ => batch_append_to_output_file output_file batch_data last
      end
  | (result, timer_expired, outcome) :: rest =>
      let batch_data :=
        if h_success result && nonempty_frame (h_data result)
        then batch_data ++ [h_data result] else batch_data in
      if (20 <=? List.length batch_data)
         || (match batch_data with [] => false | _ => true end && timer_expired)
      then collect last (batch_append_to_output_file output_file batch_data outcome) [] rest
      else collect last output_file batch_data rest
  end.

(** End of [crawl_from_csv_hybrid] as far as the output file goes. *)
Definition hybrid_output (output_file : option (list row))
    (results : list (hresult * bool * write_outcome)) (last : write_outcome)
    (dedup : dedup_outcome) : option (list row) :=
  final_deduplication (collect last output_file [] results) dedup.

(** The rows of the results that end up in the CSV when every write
    succeeds. *)
Definition written_rows (results : list (hresult * bool * write_outcome)) : list row :=
  List.concat (map (fun rt => rows_of (h_data (fst (fst rt))))
    (filter (fun rt => h_success (fst (fst rt)) && valid_frame (h_data (fst (fst rt))))
       results)).

(** The rows of a pending [batch_data] that reach the CSV. *)
Definition pending_rows (bd : list (option frame)) : list row :=
  List.concat (map rows_of (filter valid_frame bd)).

(** Every write of a run succeeds. *)
Definition all_done (results : list (hresult * bool * write_outcome)) : bool :=
  forallb (fun rt => match snd rt with Done => true | Raised _ => false end) results.

End Output.

(* ------------------------------------------------------------------ *)
(** ** [ResultBuffer] of the simple crawler (poi_crawler_simple.py) *)

Module Buffer.
Import Sink.

(** The part of a result dict [add_result] reads: [success],
    [poi_count] ([result.get('poi_count', 0)]) and [data] ([None] when
    it is [None] or not a DataFrame). *)
Record sresult := mkSResult {
  s_success : bool;
  poi_count : nat;
  s_data : option (list row)
}.

Record buffer := mkBuffer {
  output : list row;            (** data rows of [output_file] *)
  buf : list (list row);        (** [self.buffer] *)
  batch_size : nat;
  total_saved : nat;
  interrupted : bool            (** [crawler_instance.interrupt_flag] *)
}.

(** [_flush_to_disk] (the lock is held by the caller): concat and
    append, no deduplication.  When the [try] block raises, the
    [except] only prints: the buffer and [total_saved] are kept. *)
Definition flush (b : buffer) (outcome : write_outcome) : buffer :=
  match buf b with
  | [] => b
  | _ =>
      if interrupted b then b
      else
        let combined_df := List.concat (buf b) in
        match outcome with
        | Done =>
            mkBuffer (output b ++ combined_df) [] (batch_size b)
              (total_saved b + List.length combined_df) (interrupted b)
        | Raised k =>
            mkBuffer (output b ++ firstn k combined_df) (buf b) (batch_size b)
              (total_saved b) (interrupted b)
        end
  end.

(** [add_result]; [outcome] is that of the flush it triggers, if any. *)
Definition add_result (b : buffer) (result : sresult) (outcome : write_outcome) : buffer :=
  if negb (s_success result) then b
  else if poi_count result =? 0 then b
  else
    match s_data result with
    | None => b
    | Some [] => b
    | Some data =>
        let b := mkBuffer (output b) (buf b ++ [data]) (batch_size b)
                   (total_saved b) (interrupted b) in
        if batch_size b <=? List.length (buf b) then flush b outcome else b
    end.

(** One firing of [auto_flush] whose interval has elapsed. *)
Definition auto_flush (b : buffer) (outcome : write_outcome) : buffer :=
  match buf b with
  | [] => b
  | _ => flush b outcome
  end.

(** [final_flush] *)
Definition final_flush (b : buffer) (outcome : write_outcome) : buffer :=
  match buf b with
  | [] => b
  | _ => if interrupted b then b else flush b outcome
  end.

(** The signal handler sets the interrupt flag; it is never cleared. *)
Definition interrupt (b : buffer) : buffer :=
  mkBuffer (output b) (buf b) (batch_size b) (total_saved b) true.

(** The calls on the buffer, each with the outcome of the write it may
    make. *)
Inductive event :=
| Add (r : sresult) (outcome : write_outcome)
| Auto (outcome : write_outcome)
| Final (outcome : write_outcome)
| Interrupt.

Definition exec (b : buffer) (e : event) : buffer :=
  match e with
  | Add r o => add_result b r o
  | Auto o => auto_flush b o
  | Final o => final_flush b o
  | Interrupt => interrupt b
  end.

Definition run (b : buffer) (es : list event) : buffer := fold_left exec es b.

(** The results whose frame [add_result] keeps. *)
Definition accepted (r : sresult) : list row :=
  if s_success r && negb (poi_count r =? 0) then
    match s_data r with Some d => d | None => [] end
  else [].

Definition added_rows (es : list event) : list row :=
  List.concat (map (fun e => match e with Add r _ => accepted r | _ => [] end) es).

Definition no_interrupt (es : list event) : bool :=
  forallb (fun e => match e with Interrupt => false | _ => true end) es.

(** [l1] is [l2] with some elements left out. *)
Inductive subseq {A : Type} : list A -> list A -> Prop :=
| subseq_nil : subseq [] []
| subseq_skip x l1 l2 : subseq l1 l2 -> subseq l1 (x :: l2)
| subseq_take x l1 l2 : subseq l1 l2 -> subseq (x :: l1) (x :: l2).

(** Every write the calls make succeeds. *)
Definition writes_succeed (es : list event) : bool :=
  forallb (fun e => match e with
                    | Add _ (Raised _) | Auto (Raised _) | Final (Raised _) => false
                    | _ => true
                    end) es.

End Buffer.

(* ------------------------------------------------------------------ *)
(** ** Address loading: [load_addresses_from_csv] (simple) and the
       address objects built by [crawl_from_csv_async] (turbo) and
       [crawl_from_csv_hybrid] (hybrid) *)

Module Addresses.

(** The three address columns of a CSV row; [None] when the column is
    absent or the cell is NaN ([pd.notna] false). *)
Record csv_row := mkCsvRow {
  FormattedAddress : option string;
  Address : option string;
  ConvertedAddress : option string
}.

(** Truthiness of a Python [str]. *)
Definition str_truthy (s : string) : bool := negb (String.eqb s EmptyString).

Definition opt_truthy (o : option string) : bool :=
  match o with Some s => str_truthy s | None => false end.

(** Turbo / hybrid address object. *)
Record addr_obj := mkAddrObj {
  primary : option string;
  secondary : option string;
  fallback : option string;
  obj_index : nat
}.

Section WithStrip.

(** [str.strip()] *)
Variable strip : string -> string.

(** The address chosen by [load_addresses_from_csv] for one row. *)
Definition simple_address (row : csv_row) : option string :=
  match FormattedAddress row with
  | Some fa => Some (strip fa)
  | None =>
      match Address row with
      | Some a => Some a
      | None =>
          match ConvertedAddress row with
          | Some c => Some (strip c)
          | None => None
          end
      end
  end.

(** [load_addresses_from_csv] over the rows from [index] on. *)
Fixpoint load_addresses_from (index : nat) (rows : list csv_row)
    : list Dispatch.task :=
  match rows with
  | [] => []
  | row :: rest =>
      match simple_address row with
      | Some address =>
          if str_truthy address
          then Dispatch.mkTask address index (Address row) false
                 :: load_addresses_from (S index) rest
          else load_addresses_from (S index) rest
      | None => load_addresses_from (S index) rest
      end
  end.

Definition load_addresses_from_csv (rows : list csv_row) : list Dispatch.task :=
  load_addresses_from 0 rows.

(** [pd.notna(cell) and cell.strip()] then [cell.strip()]. *)
Definition stripped_if_truthy (cell : option string) : option string :=
  match cell with
  | Some s => if str_truthy (strip s) then Some (strip s) else None
  | None => None
  end.

(** The address object of [crawl_from_csv_async] (turbo). *)
Definition turbo_address_obj (index : nat) (row : csv_row) : addr_obj :=
  let p := stripped_if_truthy (FormattedAddress row) in
  let s := Address row in
  let f := stripped_if_truthy (ConvertedAddress row) in
  if negb (opt_truthy p) && opt_truthy s then mkAddrObj s f None index
  else if negb (opt_truthy p) && opt_truthy f then mkAddrObj f s None index
  else mkAddrObj p s f index.

Fixpoint turbo_addresses_from (index : nat) (rows : list csv_row) : list addr_obj :=
  match rows with
  | [] => []
  | row :: rest => turbo_address_obj index row :: turbo_addresses_from (S index) rest
  end.

(** The address object of [crawl_from_csv_hybrid]. *)
Definition hybrid_address_obj (index : nat) (row : csv_row) : addr_obj :=
  let p :=
    match stripped_if_truthy (FormattedAddress row) with
    | Some fa => Some fa
    | None =>
        match stripped_if_truthy (ConvertedAddress row) with
        | Some c => Some c
        | None => Address row
        end
    end in
  mkAddrObj p (Address row) None index.

Fixpoint hybrid_addresses_from (index : nat) (rows : list csv_row) : list addr_obj :=
  match rows with
  | [] => []
  | row :: rest =>
      let o := hybrid_address_obj index row in
      if opt_truthy (primary o) || opt_truthy (secondary o)
      then o :: hybrid_addresses_from (S index) rest
      else hybrid_addresses_from (S index) rest
  end.

End WithStrip.

(** The first truthy value of a list of cells. *)
Fixpoint first_truthy (cells : list (option string)) : option string :=
  match cells with
  | [] => None
  | c :: cs => if opt_truthy c then c else first_truthy cs
  end.

End Addresses.

(* ------------------------------------------------------------------ *)
(** ** [_extract_district_name] (turbo, hybrid).  A file name is its
       sequence of Unicode code points. *)

Module District.

(** U+533A, the ward suffix. *)
Definition ku : nat := 21306.

Definition unknown_district : list nat :=
  map Ascii.nat_of_ascii (list_ascii_of_string "unknown_district").

(** [filename.split('区')[0]] *)
Fixpoint split_first (filename : list nat) : list nat :=
  match filename with
  | [] => []
  | c :: rest => if Nat.eqb c ku then [] else c :: split_first rest
  end.

(** [_extract_district_name] applied to [Path(input_file).stem]. *)
Definition extract_district_name (filename : list nat) : list nat :=
  if existsb (Nat.eqb ku) filename then split_first filename ++ [ku]
  else unknown_district.

End District.

(* ------------------------------------------------------------------ *)
(** ** Task feeding: [TurboTaskScheduler] (FIFO [Queue]) and
       [HybridTaskScheduler] ([LifoQueue]) *)

Module Feeder.

Section Tasks.
Context {A : Type}.

(** The [for _ in range(min(10, len(self.pending_tasks)))] loop with no
    worker taking a task meanwhile: [popleft] then [put(task,
    timeout)]; on a full queue [put] raises [queue.Full] after the
    timeout, the [except] ends the round and the popped task is gone.
    Result: pending tasks, queue, and the task lost, if any. *)
Fixpoint feed_chunk (k : nat) (maxsize : nat) (pending queue : list A)
    : list A * list A * option A :=
  match k with
  | 0 => (pending, queue, None)
  | S k' =>
      match pending with
      | [] => (pending, queue, None)
      | task :: pending' =>
          if List.length queue <? maxsize
          then feed_chunk k' maxsize pending' (queue ++ [task])
          else (pending', queue, Some task)
      end
  end.

(** One iteration of the [while] loop of [feed_tasks]. *)
Definition feed_round (maxsize : nat) (pending queue : list A)
    : list A * list A * option A :=
  if List.length queue <? maxsize
  then feed_chunk (Nat.min 10 (List.length pending)) maxsize pending queue
  else (pending, queue, None).

End Tasks.

(** [TurboTaskScheduler(max_threads)]: [queue_size = min(300, max_threads * 8)] *)
Definition turbo_queue_size (max_threads : nat) : nat := Nat.min 300 (max_threads * 8).

(** [HybridTaskScheduler(max_threads)]: [maxsize = max_threads * 20] *)
Definition hybrid_queue_size (max_threads : nat) : nat := max_threads * 20.

End Feeder.

(* ------------------------------------------------------------------ *)
(** ** [_track_no_poi_result] (turbo, hybrid): results grouped in
       virtual batches; a dict keeps its insertion order. *)

Module NoPoi.

Section Tracker.
Context {R : Type}.

Definition tracker := list (nat * list R).

Fixpoint dict_get (k : nat) (t : tracker) : option (list R) :=
  match t with
  | [] => None
  | (k', v) :: t' => if Nat.eqb k' k then Some v else dict_get k t'
  end.

(** [d[k] = v] for a key present: updated in place. *)
Fixpoint dict_update (k : nat) (f : list R -> list R) (t : tracker) : tracker :=
  match t with
  | [] => []
  | (k', v) :: t' => if Nat.eqb k' k then (k', f v) :: t' else (k', v) :: dict_update k f t'
  end.

(** [sum(len(batch_results) for batch_results in tracker.values())] *)
Definition total_processed (t : tracker) : nat :=
  list_sum (map (fun kv => List.length (snd kv)) t).

(** [_track_no_poi_result(result, batch_size)]: the new tracker and the
    batch passed to [_check_no_poi_batch_warning], if any. *)
Definition track_no_poi_result (batch_size : nat) (t : tracker) (result : R)
    : tracker * option nat :=
  let batch_id := total_processed t / batch_size in
  let t := match dict_get batch_id t with
           | Some _ => t
           | None => t ++ [(batch_id, [])]
           end in
  let t := dict_update batch_id (fun l => l ++ [result]) t in
  let n := match dict_get batch_id t with Some l => List.length l | None => 0 end in
  (t, if batch_size <=? n then Some batch_id else None).

(** Results tracked one after the other; the batches checked, in order. *)
Fixpoint track_all (batch_size : nat) (t : tracker) (results : list R)
    : tracker * list nat :=
  match results with
  | [] => (t, [])
  | r :: rs =>
      let '(t, c) := track_no_poi_result batch_size t r in
      let '(t, cs) := track_all batch_size t rs in
      (t, match c with Some b => b :: cs | None => cs end)
  end.

(** Batch [b] of the results [rs] cut in consecutive chunks of
    [bs]: the grouping the tracker is compared with. *)
Definition chunk (bs : nat) (rs : list R) (b : nat) : nat * list R :=
  (b, firstn bs (skipn (b * bs) rs)).

End Tracker.

End NoPoi.

(* ------------------------------------------------------------------ *)
(** ** Client calls on [HybridDriverPool] *)

Module HybridOps.
Import Pool HybridPool.

(** [HybridDriverPool(max_drivers, max_usage_per_driver)] *)
Definition h_init (max_drivers max_usage : nat) : hpool :=
  mkHPool max_drivers [] [] max_usage [] [] 0.

Inductive hop :=
| HAcquire
| HReturn (d : driver)
| HCrash (d : driver).

Definition h_exec (s : hpool) (o : hop) : hpool :=
  match o with
  | HAcquire => snd (h_get_driver s)
  | HReturn d => h_return s d
  | HCrash d => h_crash s d
  end.

Definition h_run (s : hpool) (ops : list hop) : hpool := fold_left h_exec ops s.

End HybridOps.

(* ------------------------------------------------------------------ *)
(** ** Concrete inputs used by the examples below *)

Module Scenarios.

(** A page whose primary address is reported as [invalid_address]
    (status success), while every other address yields POIs. *)
Definition crawl_invalid_first (a : string) (_ : bool) : Dispatch.crawl_result :=
  if String.eqb a "A" then Dispatch.mkCrawl true "invalid_address"
  else Dispatch.mkCrawl true "building_with_poi".

(** Row 0 of the CSV: [FormattedAddress] "A", Japanese [Address] "B". *)
Definition job0 : Dispatch.task := Dispatch.mkTask "A" 0 (Some "B"%string) false.
Definition job1 : Dispatch.task := Dispatch.mkTask "C" 1 None false.

(** Worker and result thread alternating. *)
Definition alternate (n : nat) : list Dispatch.actor :=
  List.concat (repeat [Dispatch.Worker; Dispatch.Processor] n).

(** A CSV of ten rows, indices 0..9, and a checkpoint of that file
    whose last processed index is 4. *)
Definition batch10 : list Dispatch.task :=
  map (fun i => Dispatch.mkTask "addr" i None false) (seq 0 10).
Definition progress4 : Resume.progress :=
  Resume.mkProgress "district" (Some 4%Z) 5 10.

(** Two POI rows with distinct keys. *)
Definition row_a : Sink.row := Sink.mkRow "Cafe" (Some 35681236%Z) (Some 139767125%Z) "4.1".
Definition row_b : Sink.row := Sink.mkRow "Bank" (Some 35681240%Z) (Some 139767130%Z) "3.9".

(** A save queue holding [max_queue_size = 50] batches, on a platform
    where [Queue.qsize] is not implemented. *)
Definition full_manager : Sink.manager :=
  Sink.mkManager true (repeat [[row_b]] 50) 50 false.

(** A good checkpoint on disk, and a save of a new record in two
    chunks. *)
Definition progress_path : string := "data/progress/district_progress.json".
Definition disk0 : Checkpoint.fs := [(progress_path, "{completed_count: 500}"%string)].
Definition new_record : list string := ["{completed_count: "%string; "625}"%string].

Definition sample_high : Admission.resources :=
  Admission.mkResources 88 95 3.

End Scenarios.


(* ================================================================== *)
(** * Proofs *)

(* ------------------------------------------------------------------ *)
(** ** Admission control *)

Module AdmissionFacts.
Import Admission.
Local Open Scope Q_scope.

Lemma gtb_true x y : gtb x y = true -> y < x.
Proof.
  unfold gtb; intro H; apply negb_true_iff in H.
  apply Qnot_le_lt; intro Hle; apply Qle_bool_iff in Hle; congruence.
Qed.

Lemma gtb_false x y : gtb x y = false -> x <= y.
Proof.
  unfold gtb; intro H; apply negb_false_iff in H; now apply Qle_bool_iff.
Qed.

Lemma ltb_true x y : ltb x y = true -> x < y.
Proof. unfold ltb; apply gtb_true. Qed.

Lemma ltb_false x y : ltb x y = false -> y <= x.
Proof. unfold ltb; apply gtb_false. Qed.

Ltac qcase e :=
  let H := fresh "H" in
  destruct e eqn:H;
  [ first [ apply gtb_true in H | apply ltb_true in H ]
  | first [ apply gtb_false in H | apply ltb_false in H ] ].

Lemma should_pause_scheduling_spec r :
  should_pause_scheduling r = true <-> pause_condition r.
Proof.
  unfold should_pause_scheduling, pause_condition.
  qcase (gtb (system_memory_percent r) memory_high_threshold);
  qcase (gtb (cpu_percent r) cpu_high_threshold);
  qcase (gtb (load_average r) load_high_threshold);
  qcase (gtb (system_memory_percent r) memory_critical);
  cbn; split; intro HH; try discriminate; try reflexivity; try tauto;
  unfold memory_high_threshold, cpu_high_threshold, load_high_threshold,
    memory_critical in *;
  destruct HH as [[? ?]|[[? ?]|[[? ?]|?]]]; lra.
Qed.

Lemma resume_test_spec r :
  (ltb (system_memory_percent r) memory_low_threshold
   && ltb (cpu_percent r) cpu_low_threshold
   && ltb (load_average r) load_low_literal) = true
  <-> resume_condition r.
Proof.
  unfold resume_condition.
  qcase (ltb (system_memory_percent r) memory_low_threshold);
  qcase (ltb (cpu_percent r) cpu_low_threshold);
  qcase (ltb (load_average r) load_low_literal);
  cbn; split; intro HH; try discriminate; try tauto;
  unfold memory_low_threshold, cpu_low_threshold, load_low_literal in *;
  destruct HH as [? [? ?]]; lra.
Qed.

(** Both conditions cannot hold at once. *)
Lemma pause_resume_exclusive r : pause_condition r -> ~ resume_condition r.
Proof.
  unfold pause_condition, resume_condition, memory_high_threshold,
    cpu_high_threshold, load_high_threshold, memory_critical,
    memory_low_threshold, cpu_low_threshold, load_low_literal.
  intros HP [? [? ?]]; destruct HP as [[? ?]|[[? ?]|[[? ?]|?]]]; lra.
Qed.

(** C7: one call of [check_and_adjust_schedule] with a sampled metric
    triple pauses a running scheduler exactly when at least two metrics
    exceed their high-water marks or memory exceeds the hard ceiling,
    and resumes a paused one exactly when all three metrics are below
    their low-water marks; a call before the sampling interval has
    elapsed, or whose sampling failed, leaves the state unchanged. *)
Theorem check_and_adjust_transitions (s : scheduler) (t : Z) (r : resources) :
  (is_paused (check_and_adjust_schedule s t (Some r)) = true <->
     (is_paused s = false /\ sampled s t /\ pause_condition r)
     \/ (is_paused s = true /\ ~ (sampled s t /\ resume_condition r)))
  /\ is_paused (check_and_adjust_schedule s t None) = is_paused s
  /\ (~ sampled s t -> check_and_adjust_schedule s t (Some r) = s).
Proof.
  unfold check_and_adjust_schedule, sampled.
  destruct (Z.ltb_spec (t - last_check_time s)%Z (check_interval s)) as [Hl|Hg].
  - split; [|split; [reflexivity | reflexivity]].
    destruct (is_paused s); split; intro HH; try discriminate; try reflexivity.
    + right; split; [reflexivity | intros [? ?]; lia].
    + exfalso; destruct HH as [[_ [? _]]|[? _]]; [lia | discriminate].
  - split; [|split; [reflexivity | intro HN; exfalso; lia]].
    unfold should_resume_scheduling; cbn [is_paused set_last_check].
    pose proof (should_pause_scheduling_spec r) as Sp.
    pose proof (resume_test_spec r) as Sr.
    pose proof (pause_resume_exclusive r) as Ex.
    destruct (is_paused s) eqn:P; cbn.
    + destruct (ltb (system_memory_percent r) memory_low_threshold
                && ltb (cpu_percent r) cpu_low_threshold
                && ltb (load_average r) load_low_literal) eqn:R;
        destruct (should_pause_scheduling r); cbn; rewrite ?P; split; intro HH;
        try discriminate; try reflexivity.
      * exfalso; destruct HH as [[? ?]|[? HH]]; [discriminate|].
        apply HH; split; [lia | tauto].
      * exfalso; destruct HH as [[? ?]|[? HH]]; [discriminate|].
        apply HH; split; [lia | tauto].
      * right; split; [reflexivity | intros [? ?]; assert (false = true) by tauto; discriminate].
      * right; split; [reflexivity | intros [? ?]; assert (false = true) by tauto; discriminate].
    + destruct (should_pause_scheduling r) eqn:Pz; cbn; rewrite ?P; split; intro HH;
        try discriminate; try reflexivity.
      * left; repeat split; [lia | tauto].
      * exfalso; destruct HH as [[_ [_ ?]]|[? _]]; [|discriminate].
        assert (false = true) by tauto; discriminate.
Qed.

End AdmissionFacts.

(* ------------------------------------------------------------------ *)
(** ** Task dispatch *)

Module DispatchFacts.
Import Dispatch.

Lemma count_app {A} (f : A -> bool) (l1 l2 : list A) :
  List.length (filter f (l1 ++ l2)) = List.length (filter f l1) + List.length (filter f l2).
Proof. now rewrite filter_app, length_app. Qed.

Lemma count_split {A} (f g : A -> bool) (l : list A) :
  List.length (filter f l)
  = List.length (filter (fun x => f x && negb (g x)) l)
    + List.length (filter (fun x => f x && g x) l).
Proof.
  induction l as [|x l IH]; cbn; [reflexivity|].
  destruct (f x), (g x); cbn; lia.
Qed.

(** The escalation test only fires on a first attempt. *)
Lemma should_retry_first r cache :
  should_retry r cache = true -> r_is_retry r = false.
Proof.
  unfold should_retry; destruct (r_original_address r); [|discriminate].
  intro H; repeat match goal with
                  | H : _ && _ = true |- _ => apply andb_true_iff in H; destruct H
                  end.
  now apply negb_true_iff.
Qed.

(** Conservation of work: every first-attempt task is somewhere (a
    queue or an outcome), and retry tasks and their results never
    outnumber the first-attempt outcomes that spawned them. *)
Definition inv (init : list task) (s : state) : Prop :=
  forall i,
    count_first_results i (outcomes s) + count_first_results i (result_queue s)
    + count_first_tasks i (task_queue s) + count_first_tasks i (retry_queue s)
    = count_first_tasks i init
    /\ count_retry_results i (outcomes s) + count_retry_results i (result_queue s)
       + count_retry_tasks i (task_queue s) + count_retry_tasks i (retry_queue s)
       <= count_first_results i (outcomes s) + count_retry_tasks i init.

Lemma inv_start init : inv init (start init).
Proof.
  intro i; unfold start; cbn [outcomes result_queue task_queue retry_queue].
  unfold count_first_results, count_retry_results, count_first_tasks,
    count_retry_tasks; cbn [filter List.length]; split; lia.
Qed.

Ltac unfold_counts :=
  unfold count_first_results, count_retry_results, count_first_tasks,
    count_retry_tasks, put in *.

Section Steps.
Variable crawl_poi_info : string -> bool -> crawl_result.

Lemma worker_step_inv init s :
  inv init s -> inv init (worker_step crawl_poi_info s).
Proof.
  unfold inv, worker_step, next_task; intros H i; specialize (H i).
  destruct (retry_queue s) as [|t rq] eqn:Er;
    [destruct (task_queue s) as [|t tq] eqn:Et|]; cbn [outcomes result_queue
      task_queue retry_queue]; rewrite ?Er, ?Et in *; [exact H| |];
    unfold_counts; rewrite !count_app; cbn in *;
    destruct (index t =? i), (is_retry t); cbn in *; lia.
Qed.

Lemma processor_step_inv init s :
  inv init s -> inv init (processor_step s).
Proof.
  unfold inv, processor_step; intros H i; specialize (H i).
  destruct (result_queue s) as [|r rest] eqn:Eq; [rewrite Eq; exact H|].
  destruct (r_original_address r) as [o|];
    [destruct (should_retry r (retry_cache s)) eqn:Hs|];
    cbn [outcomes result_queue task_queue retry_queue];
    [pose proof (should_retry_first _ _ Hs) as Hf| |];
    unfold_counts; rewrite ?count_app; cbn in *;
    rewrite ?Hf in *;
    destruct (r_index r =? i), (r_is_retry r); cbn in *; try discriminate; lia.
Qed.

Lemma run_inv init sched s :
  inv init s -> inv init (run crawl_poi_info sched s).
Proof.
  revert s; induction sched as [|a sched IH]; intros s H; cbn; [exact H|].
  apply IH; destruct a; cbn;
    [apply worker_step_inv | apply processor_step_inv]; exact H.
Qed.

End Steps.

End DispatchFacts.

Module DispatchClaims.
Import Dispatch DispatchFacts Scenarios.

(** C1 (counterexample): a batch with one job whose primary address
    is classified [invalid_address] and whose Japanese address differs
    drains with two outcomes for that job: the first attempt's result is
    consumed and counted before the retry task is enqueued. *)
Lemma escalated_job_two_outcomes :
  let s := run crawl_invalid_first (alternate 2) (start [job0]) in
  drained s = true /\ count_tasks 0 [job0] = 1 /\ count_results 0 (outcomes s) = 2.
Proof. vm_compute; repeat split. Qed.

(** C1 (amended): whatever the interleaving of the worker and the
    result thread, once all queues are empty, every job of the batch
    has produced exactly one first-attempt outcome, and the retry
    outcomes of a job number at most its first attempts (so a job
    loaded once yields one outcome, or two when it was escalated). *)
Theorem outcomes_per_job (crawl_poi_info : string -> bool -> crawl_result)
    (init : list task) (sched : list actor) (i : nat) :
  drained (run crawl_poi_info sched (start init)) = true ->
  let s := run crawl_poi_info sched (start init) in
  count_results i (outcomes s)
    = count_first_results i (outcomes s) + count_retry_results i (outcomes s)
  /\ count_first_results i (outcomes s) = count_first_tasks i init
  /\ count_retry_results i (outcomes s)
       <= count_first_tasks i init + count_retry_tasks i init.
Proof.
  intros Hd s.
  pose proof (run_inv crawl_poi_info init sched (start init) (inv_start init) i) as [H1 H2].
  fold s in H1, H2, Hd.
  unfold drained in Hd.
  destruct (task_queue s), (retry_queue s), (result_queue s); try discriminate.
  cbn in H1, H2.
  split; [apply count_split|].
  split; lia.
Qed.

Lemma outcomes_per_job_witness :
  drained (run crawl_invalid_first (alternate 2) (start [job0])) = true
  /\ count_first_results 0 (outcomes (run crawl_invalid_first (alternate 2) (start [job0])))
     = count_first_tasks 0 [job0].
Proof.
  assert (Hd : drained (run crawl_invalid_first (alternate 2) (start [job0])) = true)
    by (vm_compute; reflexivity).
  split; [exact Hd|].
  exact (proj1 (proj2 (outcomes_per_job crawl_invalid_first [job0] (alternate 2) 0 Hd))).
Defined.

(** C6: the task a worker takes comes from the retry queue whenever
    that queue is non-empty (its head, leaving the main queue
    untouched); a task from the main queue is taken only when the
    retry queue is empty. *)
Theorem next_task_prefers_retry (retry_queue task_queue : list task) :
  (forall t rest, retry_queue = t :: rest ->
     next_task retry_queue task_queue = Some (t, FromRetry, rest, task_queue))
  /\ (forall t rq tq, next_task retry_queue task_queue = Some (t, FromMain, rq, tq) ->
        retry_queue = [] /\ task_queue = t :: tq).
Proof.
  split.
  - intros t rest ->; reflexivity.
  - destruct retry_queue as [|t0 rest]; cbn.
    + destruct task_queue as [|t0 tq0]; [discriminate|].
      intros t rq tq H; inversion H; subst; split; reflexivity.
    + intros t rq tq H; inversion H.
Qed.

Lemma next_task_prefers_retry_witness :
  next_task [job0] [job1] = Some (job0, FromRetry, [], [job1])
  /\ ([] : list task) = [] /\ [job1] = job1 :: [].
Proof.
  split.
  - exact (proj1 (next_task_prefers_retry [job0] [job1]) job0 [] eq_refl).
  - exact (proj2 (next_task_prefers_retry [] [job1]) job1 [] [] eq_refl).
Defined.

End DispatchClaims.

Module AdmissionClaims.
Import Admission AdmissionFacts Scenarios.

(** At a concrete state: a call 5 s after the last check with a 10 s
    interval does not sample, and leaves the scheduler as it was. *)
Lemma check_and_adjust_transitions_witness :
  ~ sampled (init 10) 5
  /\ check_and_adjust_schedule (init 10) 5 (Some sample_high) = init 10
  /\ is_paused (check_and_adjust_schedule (init 10) 20 (Some sample_high)) = true.
Proof.
  assert (Hn : ~ sampled (init 10) 5) by (unfold sampled; cbn; lia).
  split; [exact Hn|].
  split.
  - exact (proj2 (proj2 (check_and_adjust_transitions (init 10) 5 sample_high)) Hn).
  - apply (proj2 (proj1 (check_and_adjust_transitions (init 10) 20 sample_high))).
    left; split; [reflexivity|]; split; [unfold sampled; cbn; lia|].
    left; unfold memory_high_threshold, cpu_high_threshold; cbn; split;
      apply Qlt_alt; reflexivity.
Defined.

End AdmissionClaims.

(* ------------------------------------------------------------------ *)
(** ** Checkpoint contents and resume *)

Module ResumeFacts.
Import Dispatch Resume.

Lemma list_max_ge (l : list nat) (k : nat) : In k l -> k <= list_max l.
Proof.
  unfold list_max; induction l as [|x l IH]; cbn; [intros []|].
  intros [->|H]; [apply Nat.le_max_l|].
  specialize (IH H); rewrite IH; apply Nat.le_max_r.
Qed.

Lemma get_last_processed_index_max (l : list nat) (k : nat) :
  In k l -> get_last_processed_index l = Z.of_nat (list_max l).
Proof. destruct l; [intros []|reflexivity]. Qed.

Lemma last_index_save file_name s :
  last_index (save_progress file_name s) = get_last_processed_index (processed_indices s).
Proof. reflexivity. Qed.

(** When the resume branch feeds tasks, they are the addresses whose
    index is above the stored last index. *)
Lemma setup_resume_fed file_name addresses p fed rebuilt :
  p_file_name p = file_name ->
  setup_file_processing file_name addresses (Some p) = Some (fed, rebuilt) ->
  fed = filter (fun a => (last_index p <? Z.of_nat (index a))%Z) addresses
  /\ rebuilt = rebuilt_indices (last_index p).
Proof.
  intros Hn; unfold setup_file_processing, load_progress.
  rewrite Hn, String.eqb_refl.
  destruct addresses as [|a rest]; [discriminate|].
  destruct (filter _ (a :: rest)) eqn:Ef; [discriminate|].
  intro H; inversion H; subst; split; reflexivity.
Qed.

Lemma in_rebuilt (last : Z) (j : nat) :
  (Z.of_nat j <= last)%Z -> In j (rebuilt_indices last).
Proof.
  intro H; unfold rebuilt_indices.
  destruct (Z.leb_spec 0 last); [|lia].
  apply in_seq; lia.
Qed.

End ResumeFacts.

Module ResumeClaims.
Import Dispatch Resume ResumeFacts Scenarios.

(** C2: when [_setup_file_processing] resumes from the checkpoint of
    the same file, the tasks it feeds to the queue are exactly the
    loaded addresses whose index is greater than the checkpoint's
    [last_processed_index]; none with a smaller or equal index. *)
Theorem resume_feeds_only_later_jobs (file_name : string)
    (addresses : list task) (p : progress) (fed : list task) (rebuilt : list nat) :
  p_file_name p = file_name ->
  setup_file_processing file_name addresses (Some p) = Some (fed, rebuilt) ->
  forall t, In t fed <-> In t addresses /\ (last_index p < Z.of_nat (index t))%Z.
Proof.
  intros Hn Hs t.
  destruct (setup_resume_fed _ _ _ _ _ Hn Hs) as [-> _].
  rewrite filter_In, Z.ltb_lt; reflexivity.
Qed.

(** The scenario of a ten-job batch with [last_processed_index = 4]:
    the resumed run feeds exactly the jobs with indices 5..9. *)
Lemma resume_feeds_only_later_jobs_witness :
  setup_file_processing "district" batch10 (Some progress4)
    = Some (filter (fun a => (4 <? Z.of_nat (index a))%Z) batch10, seq 0 5)
  /\ map index (filter (fun a => (4 <? Z.of_nat (index a))%Z) batch10) = [5; 6; 7; 8; 9]
  /\ (In (Dispatch.mkTask "addr" 4 None false)
        (filter (fun a => (4 <? Z.of_nat (index a))%Z) batch10)
      <-> In (Dispatch.mkTask "addr" 4 None false) batch10
          /\ (last_index progress4 < Z.of_nat 4)%Z).
Proof.
  assert (Hs : setup_file_processing "district" batch10 (Some progress4)
               = Some (filter (fun a => (4 <? Z.of_nat (index a))%Z) batch10, seq 0 5))
    by (vm_compute; reflexivity).
  split; [exact Hs|]; split; [vm_compute; reflexivity|].
  exact (resume_feeds_only_later_jobs "district" batch10 progress4 _ _ eq_refl Hs _).
Defined.

(** C10: the checkpoint's watermark is the largest processed index.
    If a job with a smaller index never produced an outcome, the
    resumed run does not feed it, marks it processed in the rebuilt
    [processed_indices], and every later checkpoint taken from a
    superset of those indices keeps skipping it. *)
Theorem resume_skips_unfinished (file_name : string) (s : state)
    (addresses : list task) (job : task) (k : nat) :
  In job addresses ->
  ~ In (index job) (processed_indices s) ->
  In k (processed_indices s) ->
  index job < k ->
  last_index (save_progress file_name s) = Z.of_nat (list_max (processed_indices s))
  /\ (forall fed rebuilt,
        setup_file_processing file_name addresses
          (Some (save_progress file_name s)) = Some (fed, rebuilt) ->
        ~ In job fed /\ In (index job) rebuilt
        /\ (forall s' fed' rebuilt',
              incl rebuilt (processed_indices s') ->
              setup_file_processing file_name addresses
                (Some (save_progress file_name s')) = Some (fed', rebuilt') ->
              ~ In job fed')).
Proof.
  intros Hin Hnot Hk Hlt.
  assert (Hmax : last_index (save_progress file_name s)
                 = Z.of_nat (list_max (processed_indices s)))
    by (rewrite last_index_save; exact (get_last_processed_index_max _ _ Hk)).
  pose proof (list_max_ge _ _ Hk) as Hkm.
  split; [exact Hmax|].
  intros fed rebuilt Hs.
  destruct (setup_resume_fed _ _ _ _ _ eq_refl Hs) as [Hfed Hreb].
  assert (Hj : In (index job) rebuilt)
    by (rewrite Hreb; apply in_rebuilt; rewrite Hmax; lia).
  split; [|split; [exact Hj|]].
  - rewrite Hfed, filter_In, Z.ltb_lt, Hmax; intros [_ ?]; lia.
  - intros s' fed' rebuilt' Hincl Hs'.
    destruct (setup_resume_fed _ _ _ _ _ eq_refl Hs') as [Hfed' _].
    pose proof (Hincl _ Hj) as Hj'.
    pose proof (list_max_ge _ _ Hj') as Hm'.
    rewrite Hfed', filter_In, Z.ltb_lt, last_index_save,
      (get_last_processed_index_max _ _ Hj').
    intros [_ ?]; lia.
Qed.

(** Jobs 0 and 2 finished, job 1 was in flight at the crash: the
    checkpoint records 2, and the resumed run never feeds job 1. *)
Lemma resume_skips_unfinished_witness :
  let s := mkState [] [] [] [] [] [2; 0] 2 2 0 10 in
  let job := Dispatch.mkTask "addr" 1 None false in
  In job batch10 /\ ~ In 1 (processed_indices s) /\ In 2 (processed_indices s)
  /\ last_index (save_progress "district" s) = 2%Z
  /\ ~ In job (filter (fun a => (2 <? Z.of_nat (index a))%Z) batch10).
Proof.
  intros s job.
  assert (Hin : In job batch10) by (cbn; tauto).
  assert (Hnot : ~ In 1 (processed_indices s)) by (cbn; lia).
  assert (Hk : In 2 (processed_indices s)) by (cbn; tauto).
  assert (Hs : setup_file_processing "district" batch10
                 (Some (save_progress "district" s))
               = Some (filter (fun a => (2 <? Z.of_nat (index a))%Z) batch10, seq 0 3))
    by (vm_compute; reflexivity).
  destruct (resume_skips_unfinished "district" s batch10 job 2 Hin Hnot Hk
              (le_n 2)) as [Hmax Hrest].
  split; [exact Hin|]; split; [exact Hnot|]; split; [exact Hk|].
  split; [exact Hmax|].
  exact (proj1 (Hrest _ _ Hs)).
Defined.

End ResumeClaims.

(* ------------------------------------------------------------------ *)
(** ** Result sink *)

Module SinkFacts.
Import Sink.

Lemma opt_eqb_eq a b : opt_eqb a b = true -> a = b.
Proof.
  destruct a, b; cbn; try discriminate; [|reflexivity].
  intro H; apply Z.eqb_eq in H; now subst.
Qed.

Lemma opt_eqb_refl a : opt_eqb a a = true.
Proof. destruct a; cbn; [apply Z.eqb_refl | reflexivity]. Qed.

Lemma key_eqb_eq k1 k2 : key_eqb k1 k2 = true -> k1 = k2.
Proof.
  destruct k1 as [[n1 a1] b1], k2 as [[n2 a2] b2]; cbn.
  intro H; apply andb_true_iff in H as [H Hb]; apply andb_true_iff in H as [Hn Ha].
  apply String.eqb_eq in Hn; apply opt_eqb_eq in Ha; apply opt_eqb_eq in Hb.
  now subst.
Qed.

Lemma key_eqb_refl k : key_eqb k k = true.
Proof.
  destruct k as [[n a] b]; cbn; now rewrite String.eqb_refl, !opt_eqb_refl.
Qed.

(** A kept row's key was not seen before. *)
Lemma drop_duplicates_from_fresh seen rows r :
  In r (drop_duplicates_from seen rows) ->
  existsb (key_eqb (row_key r)) seen = false.
Proof.
  revert seen; induction rows as [|r0 rs IH]; intros seen; cbn [drop_duplicates_from In]; [intros []|].
  destruct (existsb (key_eqb (row_key r0)) seen) eqn:E; [apply IH|].
  intros [<-|H]; [exact E|].
  specialize (IH _ H); cbn [existsb] in IH; apply orb_false_iff in IH; tauto.
Qed.

Lemma drop_duplicates_from_nodup seen rows :
  NoDup (map row_key (drop_duplicates_from seen rows)).
Proof.
  revert seen; induction rows as [|r0 rs IH]; intros seen; cbn [drop_duplicates_from find existsb orb]; [constructor|].
  destruct (existsb (key_eqb (row_key r0)) seen); [apply IH|].
  cbn [drop_duplicates_from find existsb orb]; constructor; [|apply IH].
  intro Hin; apply in_map_iff in Hin as [r [Hk Hr]].
  apply drop_duplicates_from_fresh in Hr; cbn [existsb] in Hr.
  rewrite Hk, key_eqb_refl in Hr; discriminate.
Qed.

(** For a key not seen yet, the first row with that key is kept. *)
Lemma drop_duplicates_from_first seen rows k :
  existsb (key_eqb k) seen = false ->
  find (fun r => key_eqb (row_key r) k) (drop_duplicates_from seen rows)
  = find (fun r => key_eqb (row_key r) k) rows.
Proof.
  revert seen; induction rows as [|r0 rs IH]; intros seen Hk; cbn [drop_duplicates_from find existsb orb]; [reflexivity|].
  destruct (key_eqb (row_key r0) k) eqn:Er.
  - apply key_eqb_eq in Er; subst k.
    rewrite Hk; cbn [drop_duplicates_from find existsb orb]; now rewrite key_eqb_refl.
  - destruct (existsb (key_eqb (row_key r0)) seen); [now apply IH|].
    cbn [drop_duplicates_from find existsb orb]; rewrite Er; apply IH; cbn [drop_duplicates_from find existsb orb]; rewrite Hk, orb_false_r.
    destruct (key_eqb k (row_key r0)) eqn:E'; [|reflexivity].
    apply key_eqb_eq in E'; subst k; now rewrite key_eqb_refl in Er.
Qed.

End SinkFacts.

Module SinkClaims.
Import Sink SinkFacts Scenarios.

(** C3 (code bug): the same row submitted in two batches is
    written twice: the save process deduplicates each batch on its own
    and appends it without looking at the rows already in the file,
    and the turbo crawler never calls its [_final_deduplication]. *)
Lemma duplicate_across_batches :
  save_worker_process [] [([[row_a]], Done); ([[row_a]], Done)] = [row_a; row_a]
  /\ ~ NoDup (map row_key (save_worker_process [] [([[row_a]], Done); ([[row_a]], Done)])).
Proof.
  assert (E : save_worker_process [] [([[row_a]], Done); ([[row_a]], Done)] = [row_a; row_a])
    by reflexivity.
  split; [exact E|]; rewrite E; cbn.
  intro H; inversion H as [|? ? Hn]; apply Hn; left; reflexivity.
Qed.

(** C8 (code bug): with the save queue full ([50] of
    [max_queue_size = 50]), [qsize] unsupported and the save process
    taking no batch during the 5 s timeout, the failed submission is
    followed by [batch_data = []]: the payload is neither queued, nor
    written, nor kept. *)
Lemma failed_submission_dropped :
  submit_step [[row_a]] ([], full_manager) (PutWaits []) = ([], ([], full_manager))
  /\ ~ In row_a (List.concat (List.concat (save_queue full_manager))).
Proof.
  split; [vm_compute; reflexivity|].
  cbn; intuition discriminate.
Qed.

End SinkClaims.

(* ------------------------------------------------------------------ *)
(** ** Driver pool *)

Module PoolClaims.
Import Pool Scenarios.

(** C4: two [release_driver] calls on one driver decrement
    [total_created] twice, after which [get_driver] creates drivers
    beyond [max_drivers]: three live Chrome instances in a pool of 2. *)
Lemma double_retire_exceeds_pool_size :
  let s := run (init 2) [Acquire; Acquire; Retire 0; Retire 0; Acquire; Acquire] in
  max_drivers s = 2 /\ live_count s = 3 /\ total_created s = 2.
Proof. vm_compute; repeat split. Qed.

(** C9: a driver returned to the free list and then crashed is
    destroyed by the probe of [get_driver] without giving back its
    slot: [total_created] stays at the cap, no driver is live, and no
    replacement is created.  The hybrid pool frees the slot
    ([usage_count.pop]) and creates a replacement in the same
    situation. *)
Lemma failed_probe_blocks_replacement :
  let s := run (init 1) [Acquire; Return 0; Crash 0] in
  fst (get_driver s) = None
  /\ live_count (snd (get_driver s)) = 0
  /\ total_created (snd (get_driver s)) = max_drivers s
  /\ fst (HybridPool.h_get_driver
            (HybridPool.h_crash
               (HybridPool.h_return
                  (snd (HybridPool.h_get_driver
                          (HybridPool.mkHPool 1 [] [] 100 [] [] 0))) 0) 0))
     = Some 1.
Proof. vm_compute; repeat split. Qed.

End PoolClaims.

(* ------------------------------------------------------------------ *)
(** ** Checkpoint writes *)

Module CheckpointFacts.
Import Checkpoint.

Lemma string_length_append a b :
  String.length (String.append a b) = String.length a + String.length b.
Proof. induction a; cbn; [reflexivity | now rewrite IHa]. Qed.

Lemma temp_file_neq p : temp_file p <> p.
Proof.
  unfold temp_file; intro H.
  apply (f_equal String.length) in H; rewrite string_length_append in H.
  cbn in H; lia.
Qed.

Lemma read_filter_neq (f : fs) p q :
  q <> p -> read (filter (fun qc => negb (String.eqb (fst qc) p)) f) q = read f q.
Proof.
  intro Hn; induction f as [|[r c] f IH]; cbn; [reflexivity|].
  destruct (String.eqb_spec r p) as [->|Hrp]; cbn.
  - destruct (String.eqb_spec p q); [congruence | exact IH].
  - destruct (String.eqb r q); [reflexivity | exact IH].
Qed.

Lemma read_set_eq f p c : read (set f p c) p = Some c.
Proof. unfold set; cbn; now rewrite String.eqb_refl. Qed.

Lemma read_set_neq f p q c : q <> p -> read (set f p c) q = read f q.
Proof.
  intro Hn; unfold set; cbn.
  destruct (String.eqb_spec p q); [congruence|].
  now apply read_filter_neq.
Qed.

Lemma run_app f l1 l2 : run f (l1 ++ l2) = run (run f l1) l2.
Proof. unfold run; apply fold_left_app. Qed.

Lemma writes_other g p q chunks :
  q <> p -> read (run g (dump p chunks)) q = read g q.
Proof.
  intro Hn; revert g; induction chunks as [|c cs IH]; intro g; cbn; [reflexivity|].
  unfold run in IH; rewrite IH; cbn.
  destruct (read g p); now apply read_set_neq.
Qed.

Lemma writes_same g p chunks c :
  read g p = Some c ->
  read (run g (dump p chunks)) p = Some (fold_left String.append chunks c).
Proof.
  revert g c; induction chunks as [|x xs IH]; intros g c Hc; cbn; [exact Hc|].
  unfold run in IH; apply IH; cbn; rewrite Hc; apply read_set_eq.
Qed.

(** [_save_progress_async] is crash safe: after any prefix of its
    calls, the progress file holds either the previous checkpoint or
    the complete new record. *)
Lemma save_progress_async_atomic f progress_file chunks k :
  read (crash_after f (save_progress_async progress_file chunks) k) progress_file
    = read f progress_file
  \/ read (crash_after f (save_progress_async progress_file chunks) k) progress_file
    = Some (contents chunks).
Proof.
  pose proof (temp_file_neq progress_file) as Hne.
  unfold crash_after, save_progress_async.
  destruct k as [|k]; [left; reflexivity|].
  cbn [firstn]; change (run f (OpenWrite (temp_file progress_file) :: ?l))
    with (run (exec f (OpenWrite (temp_file progress_file))) l).
  set (g := exec f (OpenWrite (temp_file progress_file))).
  assert (Hg : read g progress_file = read f progress_file)
    by (apply read_set_neq; congruence).
  assert (Hgt : read g (temp_file progress_file) = Some EmptyString)
    by apply read_set_eq.
  assert (Hlen : List.length (dump (temp_file progress_file) chunks) = List.length chunks)
    by apply length_map.
  destruct (Nat.le_gt_cases k (List.length chunks)) as [Hk|Hk].
  - left; rewrite firstn_app.
    replace (k - List.length (dump (temp_file progress_file) chunks)) with 0 by lia.
    rewrite app_nil_r; unfold dump; rewrite firstn_map, <- Hg.
    apply writes_other; congruence.
  - right; rewrite firstn_all2 by (rewrite length_app; cbn; lia).
    rewrite run_app.
    change (run ?x [Rename ?a ?b]) with (exec x (Rename a b)); unfold exec.
    rewrite (writes_same g _ chunks EmptyString Hgt).
    apply read_set_eq.
Qed.

End CheckpointFacts.

Module CheckpointClaims.
Import Checkpoint CheckpointFacts Scenarios.

(** C5: the hybrid crawler's [_save_progress] opens the progress file
    with mode 'w' and dumps into it; a crash right after the [open]
    leaves an empty file, which is neither the previous checkpoint nor
    the new record (and [json.load] rejects it). *)
Lemma direct_save_crash_truncates :
  read (crash_after disk0 (save_progress progress_path new_record) 1) progress_path
    = Some EmptyString
  /\ read disk0 progress_path <> Some EmptyString
  /\ contents new_record <> EmptyString.
Proof. vm_compute; split; [reflexivity | split; discriminate]. Qed.

End CheckpointClaims.

(* ------------------------------------------------------------------ *)
(** ** Output files: deduplication across writes *)

Module OutputFacts.
Import Sink SinkFacts Output.

Lemma existsb_key_In k S : existsb (key_eqb k) S = true <-> In k S.
Proof.
  rewrite existsb_exists; split.
  - intros [k' [Hin Heq]]; apply key_eqb_eq in Heq; now subst.
  - intro Hin; exists k; split; [exact Hin | apply key_eqb_refl].
Qed.

Lemma existsb_key_false k S : existsb (key_eqb k) S = false <-> ~ In k S.
Proof.
  rewrite <- existsb_key_In; destruct (existsb (key_eqb k) S); split;
    congruence || (intros; discriminate) || auto.
Qed.

(** [drop_duplicates_from] looks at [seen] only through membership. *)
Lemma dd_seen_ext S S' l :
  (forall k, In k S <-> In k S') -> drop_duplicates_from S l = drop_duplicates_from S' l.
Proof.
  revert S S'; induction l as [|r rs IH]; intros S S' H; cbn; [reflexivity|].
  destruct (existsb (key_eqb (row_key r)) S) eqn:E1;
    destruct (existsb (key_eqb (row_key r)) S') eqn:E2.
  - now apply IH.
  - apply existsb_key_In in E1; apply existsb_key_false in E2; exfalso; apply E2, H, E1.
  - apply existsb_key_In in E2; apply existsb_key_false in E1; exfalso; apply E1, H, E2.
  - f_equal; apply IH; intro k; cbn; specialize (H k); tauto.
Qed.

Lemma dd_app S l1 l2 :
  drop_duplicates_from S (l1 ++ l2)
  = drop_duplicates_from S l1 ++ drop_duplicates_from (map row_key l1 ++ S) l2.
Proof.
  revert S; induction l1 as [|r rs IH]; intro S; cbn; [reflexivity|].
  destruct (existsb (key_eqb (row_key r)) S) eqn:E.
  - rewrite IH; f_equal; apply dd_seen_ext; intro k.
    apply existsb_key_In in E; cbn; rewrite !in_app_iff.
    split; [tauto|]; intros [<-|H]; [right; exact E | exact H].
  - rewrite IH; cbn; f_equal; f_equal; apply dd_seen_ext; intro k.
    cbn; rewrite !in_app_iff; cbn; tauto.
Qed.

(** Deduplicating first with fewer keys seen changes nothing. *)
Lemma dd_twice T S l :
  incl T S -> drop_duplicates_from S (drop_duplicates_from T l) = drop_duplicates_from S l.
Proof.
  revert T S; induction l as [|r rs IH]; intros T S Hi; cbn; [reflexivity|].
  destruct (existsb (key_eqb (row_key r)) T) eqn:ET.
  - assert (ES : existsb (key_eqb (row_key r)) S = true)
      by (apply existsb_key_In, Hi, existsb_key_In, ET).
    rewrite ES; now apply IH.
  - cbn; destruct (existsb (key_eqb (row_key r)) S) eqn:ES.
    + apply IH; intros k [<-|Hk]; [apply existsb_key_In, ES | apply Hi, Hk].
    + f_equal; apply IH; intros k [<-|Hk]; [left; reflexivity | right; apply Hi, Hk].
Qed.

Lemma dd_keys S l k :
  In k (map row_key (drop_duplicates_from S l) ++ S) <-> In k (map row_key l ++ S).
Proof.
  revert S; induction l as [|r rs IH]; intro S; cbn; [reflexivity|].
  destruct (existsb (key_eqb (row_key r)) S) eqn:E.
  - rewrite IH; apply existsb_key_In in E; rewrite !in_app_iff; cbn.
    split; [tauto|]; intros [Hk|H]; [subst k; tauto | tauto].
  - cbn; specialize (IH (row_key r :: S)); rewrite !in_app_iff in *; cbn in *; tauto.
Qed.

(** Writing deduplicated rows and deduplicating the whole file later
    gives the same file as deduplicating once at the end. *)
Lemma dd_app_dd f v w :
  drop_duplicates (f ++ drop_duplicates v ++ w) = drop_duplicates (f ++ v ++ w).
Proof.
  unfold drop_duplicates; rewrite !dd_app; f_equal.
  rewrite dd_twice by (intros ? []).
  f_equal; apply dd_seen_ext; intro k.
  rewrite !app_nil_r, !in_app_iff.
  pose proof (dd_keys [] v k) as H; rewrite !app_nil_r in H; tauto.
Qed.

Lemma dd_length_or_eq S l :
  drop_duplicates_from S l = l \/ List.length (drop_duplicates_from S l) < List.length l.
Proof.
  revert S; induction l as [|r rs IH]; intro S; cbn; [left; reflexivity|].
  destruct (existsb (key_eqb (row_key r)) S).
  - right; destruct (IH S) as [-> | H]; lia.
  - destruct (IH (row_key r :: S)) as [-> | H]; [left; reflexivity | right; cbn; lia].
Qed.

Lemma dd_nodup_id S l :
  NoDup (map row_key l) -> (forall r, In r l -> ~ In (row_key r) S) ->
  drop_duplicates_from S l = l.
Proof.
  revert S; induction l as [|r rs IH]; intros S Hn Hs; cbn; [reflexivity|].
  inversion Hn as [|? ? Hr Hn']; subst.
  assert (E : existsb (key_eqb (row_key r)) S = false)
    by (apply existsb_key_false, Hs; left; reflexivity).
  rewrite E; f_equal; apply IH; [exact Hn'|].
  intros r' Hr' [Heq|Hin].
  - apply Hr; rewrite Heq; now apply in_map.
  - exact (Hs r' (or_intror Hr') Hin).
Qed.

Lemma dd_incl S l r : In r (drop_duplicates_from S l) -> In r l.
Proof.
  revert S; induction l as [|x xs IH]; intros S; cbn; [tauto|].
  destruct (existsb (key_eqb (row_key x)) S); [intro H; right; exact (IH _ H)|].
  intros [<-|H]; [left; reflexivity | right; exact (IH _ H)].
Qed.

Lemma written_incl o l r : In r (written o l) -> In r l.
Proof.
  destruct o as [|k]; cbn [written]; [auto|].
  intro H; rewrite <- (firstn_skipn k l); apply in_or_app; left; exact H.
Qed.

Lemma nodup_written o l : NoDup (map row_key l) -> NoDup (map row_key (written o l)).
Proof.
  destruct o as [|k]; cbn [written]; [auto|].
  intro H; rewrite <- (firstn_skipn k l), map_app in H.
  exact (NoDup_app_remove_r _ _ H).
Qed.

Lemma final_deduplication_dd f :
  final_deduplication (Some f) DedupDone = Some (drop_duplicates f).
Proof.
  unfold final_deduplication; cbv zeta.
  destruct (dd_length_or_eq [] f) as [E|E]; change (drop_duplicates_from [] f) with (drop_duplicates f) in E.
  - rewrite E, Nat.ltb_irrefl; reflexivity.
  - apply Nat.ltb_lt in E; now rewrite E.
Qed.

Lemma final_deduplication_unchanged f o :
  drop_duplicates f = f -> final_deduplication (Some f) o = Some f.
Proof.
  intro E; unfold final_deduplication; cbv zeta.
  destruct o; try reflexivity; rewrite E, Nat.ltb_irrefl; reflexivity.
Qed.

Lemma final_deduplication_in_write f k :
  drop_duplicates f <> f ->
  final_deduplication (Some f) (RaisedInWrite k) = Some (firstn k (drop_duplicates f)).
Proof.
  intro Hne; unfold final_deduplication; cbv zeta.
  destruct (dd_length_or_eq [] f) as [E|E]; [exfalso; apply Hne; exact E|].
  change (drop_duplicates_from [] f) with (drop_duplicates f) in E.
  apply Nat.ltb_lt in E; now rewrite E.
Qed.

Ltac nil_written o := destruct o; cbn; rewrite ?firstn_nil, ?app_nil_r; reflexivity.

Lemma batch_append_spec f dl o :
  batch_append_to_output_file (Some f) dl o
  = Some (f ++ written o (drop_duplicates (List.concat (map rows_of (filter valid_frame dl))))).
Proof.
  unfold batch_append_to_output_file.
  destruct dl as [|d dl]; [nil_written o|].
  destruct (filter valid_frame (d :: dl)) as [|v vs]; [nil_written o|].
  destruct (drop_duplicates (List.concat (map rows_of (v :: vs)))); [nil_written o|].
  reflexivity.
Qed.

Lemma valid_nonempty d : valid_frame d = true -> nonempty_frame d = true.
Proof. unfold valid_frame; now intros [H _]%andb_true_iff. Qed.

Lemma pending_rows_snoc bd d :
  pending_rows (bd ++ [d]) = pending_rows bd ++ (if valid_frame d then rows_of d else []).
Proof.
  unfold pending_rows; rewrite filter_app, map_app, concat_app; cbn.
  destruct (valid_frame d); cbn; now rewrite ?app_nil_r.
Qed.

(** What one result adds to the rows bound for the file. *)
Lemma pending_step bd r t o rest :
  let bd' := if h_success r && nonempty_frame (h_data r) then bd ++ [h_data r] else bd in
  pending_rows bd' ++ written_rows rest = pending_rows bd ++ written_rows ((r, t, o) :: rest).
Proof.
  intro bd'; pose proof (valid_nonempty (h_data r)) as Hv.
  unfold bd', written_rows; cbn [filter fst].
  destruct (h_success r); cbn [andb]; [|reflexivity].
  destruct (nonempty_frame (h_data r)) eqn:Ene.
  - rewrite pending_rows_snoc.
    destruct (valid_frame (h_data r)); cbn [map List.concat];
      rewrite <- ?app_assoc; reflexivity.
  - destruct (valid_frame (h_data r)); [discriminate (Hv eq_refl)|reflexivity].
Qed.

Lemma collect_spec results : all_done results = true -> forall f bd,
  exists g, collect Done (Some f) bd results = Some g
  /\ drop_duplicates g = drop_duplicates (f ++ pending_rows bd ++ written_rows results).
Proof.
  induction results as [|[[r t] o] rest IH]; intros Hd f bd; cbn [collect].
  - unfold written_rows; cbn [filter map List.concat]; rewrite app_nil_r.
    destruct bd as [|d bd'].
    + exists f; split; [reflexivity|]; unfold pending_rows; cbn; now rewrite app_nil_r.
    + cbv iota beta; rewrite batch_append_spec; eexists; split; [reflexivity|].
      pose proof (dd_app_dd f (pending_rows (d :: bd')) []) as H.
      rewrite !app_nil_r in H; exact H.
  - cbn [all_done forallb snd] in Hd; destruct o as [|k]; [|discriminate].
    pose proof (pending_step bd r t Done rest) as Hbd; cbv zeta in Hbd.
    set (bd' := if h_success r && nonempty_frame (h_data r)
                then bd ++ [h_data r] else bd) in *.
    destruct (_ || _).
    + rewrite batch_append_spec; cbn [written].
      destruct (IH Hd (f ++ drop_duplicates (pending_rows bd')) []) as [g [Hg Hdg]].
      exists g; split; [exact Hg|].
      rewrite Hdg; change (pending_rows []) with (@nil row).
      rewrite app_nil_l, <- app_assoc, dd_app_dd, Hbd; reflexivity.
    + destruct (IH Hd f bd') as [g [Hg Hdg]].
      exists g; split; [exact Hg|]; now rewrite Hdg, Hbd.
Qed.

Lemma collect_sub last results : forall f bd,
  exists extra, collect last (Some f) bd results = Some (f ++ extra)
  /\ incl extra (pending_rows bd ++ written_rows results).
Proof.
  induction results as [|[[r t] o] rest IH]; intros f bd; cbn [collect].
  - destruct bd as [|d bd'].
    + exists []; split; [now rewrite app_nil_r | intros ? []].
    + cbv iota beta; rewrite batch_append_spec; eexists; split; [reflexivity|].
      intros x Hx; apply in_or_app; left.
      apply written_incl, dd_incl in Hx; exact Hx.
  - pose proof (pending_step bd r t o rest) as Hbd; cbv zeta in Hbd.
    set (bd' := if h_success r && nonempty_frame (h_data r)
                then bd ++ [h_data r] else bd) in *.
    destruct (_ || _).
    + rewrite batch_append_spec.
      change (List.concat (map rows_of (filter valid_frame bd'))) with (pending_rows bd').
      destruct (IH (f ++ written o (drop_duplicates (pending_rows bd'))) [])
        as [extra [Hg Hi]].
      exists (written o (drop_duplicates (pending_rows bd')) ++ extra).
      split; [rewrite Hg, <- app_assoc; reflexivity|].
      intros x Hx; rewrite <- Hbd; apply in_or_app.
      apply in_app_or in Hx as [Hx|Hx].
      * left; apply written_incl, dd_incl in Hx; exact Hx.
      * right; exact (Hi x Hx).
    + destruct (IH f bd') as [extra [Hg Hi]].
      exists extra; split; [exact Hg|]; rewrite <- Hbd; exact Hi.
Qed.

End OutputFacts.

Module OutputClaims.
Import Sink SinkFacts Output OutputFacts Scenarios.

(** When every write succeeds, the hybrid crawler's output file at the
    end of a run is whatever was in the CSV, followed by the rows of
    every successful result whose frame is non-empty and has all
    required columns, in the order the results were collected,
    deduplicated on (name, lat, lng) keeping the first occurrence;
    whichever way the 20-frame and 5 s flushes split the rows into
    writes. *)
Theorem hybrid_output_dedup (f : list row) (results : list (hresult * bool * write_outcome)) :
  all_done results = true ->
  hybrid_output (Some f) results Done DedupDone = Some (drop_duplicates (f ++ written_rows results))
  /\ NoDup (map row_key (drop_duplicates (f ++ written_rows results)))
  /\ (forall k, find (fun r => key_eqb (row_key r) k)
                  (drop_duplicates (f ++ written_rows results))
                = find (fun r => key_eqb (row_key r) k) (f ++ written_rows results)).
Proof.
  intro Hd; split; [|split].
  - unfold hybrid_output.
    destruct (collect_spec results Hd f []) as [g [Hg Hdg]].
    rewrite Hg, final_deduplication_dd, Hdg; reflexivity.
  - apply drop_duplicates_from_nodup.
  - intro k; apply drop_duplicates_from_first; reflexivity.
Qed.

Lemma hybrid_output_dedup_witness :
  let rs := [(mkHResult true (Some (mkFrame true [row_a])), false, Done);
             (mkHResult false None, false, Done);
             (mkHResult true (Some (mkFrame true [row_a; row_b])), true, Done)] in
  all_done rs = true
  /\ hybrid_output (Some [row_b]) rs Done DedupDone = Some [row_b; row_a].
Proof.
  intro rs; split; [reflexivity|].
  rewrite (proj1 (hybrid_output_dedup [row_b] rs eq_refl)); vm_compute; reflexivity.
Defined.

(** Whatever writes of the run fail, once [_final_deduplication]
    succeeds the hybrid crawler's output file is the previous CSV
    followed by some of the collected rows, deduplicated on (name, lat,
    lng): no two rows share a key, it begins with the previous rows
    (deduplicated), and every other row comes from a successful result
    with a valid frame. *)
Theorem hybrid_output_failed_writes (f : list row)
    (results : list (hresult * bool * write_outcome)) (last : write_outcome) :
  exists extra,
    incl extra (written_rows results)
    /\ hybrid_output (Some f) results last DedupDone = Some (drop_duplicates (f ++ extra))
    /\ NoDup (map row_key (drop_duplicates (f ++ extra)))
    /\ (exists tl, drop_duplicates (f ++ extra) = drop_duplicates f ++ tl).
Proof.
  destruct (collect_sub last results f []) as [extra [Hc Hi]].
  exists extra; split; [exact Hi|]; split.
  - unfold hybrid_output; rewrite Hc, final_deduplication_dd; reflexivity.
  - split; [apply drop_duplicates_from_nodup|].
    unfold drop_duplicates; rewrite dd_app; eexists; reflexivity.
Qed.

(** [_final_deduplication]: when it succeeds the CSV is deduplicated on
    (name, lat, lng) with the first occurrence of each key kept, and
    running it again changes nothing; an exception before the rewrite
    leaves the file as it was; a file without duplicate keys is left
    as it is whatever happens; but an exception in the rewrite of a
    file with duplicates (mode ['w']) leaves only the [k] rows written
    before it. *)
Theorem final_deduplication_spec (f : list row) (k : nat) :
  final_deduplication (Some f) DedupDone = Some (drop_duplicates f)
  /\ NoDup (map row_key (drop_duplicates f))
  /\ final_deduplication (final_deduplication (Some f) DedupDone) DedupDone
     = final_deduplication (Some f) DedupDone
  /\ final_deduplication (Some f) RaisedBeforeWrite = Some f
  /\ (NoDup (map row_key f) -> forall o, final_deduplication (Some f) o = Some f)
  /\ (drop_duplicates f <> f ->
      final_deduplication (Some f) (RaisedInWrite k) = Some (firstn k (drop_duplicates f))).
Proof.
  rewrite !final_deduplication_dd.
  split; [reflexivity|]; split; [apply drop_duplicates_from_nodup|]; split.
  - unfold drop_duplicates; rewrite dd_twice by (intros ? []); reflexivity.
  - split; [reflexivity|]; split.
    + intros Hn o; apply final_deduplication_unchanged.
      unfold drop_duplicates; apply dd_nodup_id; [exact Hn|]; intros ? _ [].
    + apply final_deduplication_in_write.
Qed.

(** A file of two distinct rows is left as it is; a file holding one
    row twice is emptied by an exception raised before [to_csv] wrote
    a row. *)
Lemma final_deduplication_spec_witness :
  NoDup (map row_key [row_a; row_b])
  /\ final_deduplication (Some [row_a; row_b]) (RaisedInWrite 0) = Some [row_a; row_b]
  /\ drop_duplicates [row_a; row_a] <> [row_a; row_a]
  /\ final_deduplication (Some [row_a; row_a]) (RaisedInWrite 0) = Some [].
Proof.
  assert (Hn : NoDup (map row_key [row_a; row_b])).
  { cbn; constructor; [cbn; intros [H|[]]; discriminate H|].
    constructor; [intros []|constructor]. }
  assert (Hd : drop_duplicates [row_a; row_a] <> [row_a; row_a])
    by (vm_compute; discriminate).
  split; [exact Hn|]; split.
  - exact (proj1 (proj2 (proj2 (proj2 (proj2 (final_deduplication_spec _ 0))))) Hn _).
  - split; [exact Hd|].
    rewrite (proj2 (proj2 (proj2 (proj2 (proj2 (final_deduplication_spec _ 0))))) Hd).
    reflexivity.
Defined.

(** [_batch_append_to_output_file] appends, after the existing rows,
    the rows of the valid frames of [data_list] deduplicated among
    themselves: all of them when the write succeeds, only the first [k]
    when an exception interrupts it after [k] rows (none when it is
    raised before the file is touched), the rest of the batch being
    dropped.  Every appended row comes from a non-empty frame that has
    all required columns, and no two appended rows share a key.  It
    writes nothing while [output_file] is [None]. *)
Theorem batch_append_appends (f : list row) (data_list : list (option frame))
    (o : write_outcome) :
  batch_append_to_output_file (Some f) data_list o
    = Some (f ++ written o (drop_duplicates (List.concat (map rows_of (filter valid_frame data_list)))))
  /\ NoDup (map row_key (written o (drop_duplicates (List.concat (map rows_of (filter valid_frame data_list))))))
  /\ (forall r, In r (written o (drop_duplicates (List.concat (map rows_of (filter valid_frame data_list))))) ->
       exists d, In d data_list /\ valid_frame d = true /\ In r (rows_of d))
  /\ batch_append_to_output_file None data_list o = None.
Proof.
  split; [apply batch_append_spec|].
  split; [apply nodup_written, drop_duplicates_from_nodup|].
  split; [|reflexivity].
  intros r Hr.
  apply written_incl, dd_incl in Hr; apply in_concat in Hr as [rs [Hrs Hr]].
  apply in_map_iff in Hrs as [d [<- Hd]]; apply filter_In in Hd as [Hd Hv].
  exists d; tauto.
Qed.

(** [DataSaveWorker.save_worker_process] appends each batch it takes,
    in order, reduced to the first row of each (name, lat, lng) key of
    the batch; a batch whose processing raises leaves the rows written
    before the exception and the process goes on with the next batch.
    The rows a batch adds never share a key with each other. *)
Theorem save_worker_process_spec (file : list row)
    (batches : list (list (list row) * write_outcome)) :
  save_worker_process file batches
  = file ++ List.concat (map (fun bo => written (snd bo) (drop_duplicates (List.concat (fst bo))))
                           batches)
  /\ (forall bo, In bo batches ->
        NoDup (map row_key (written (snd bo) (drop_duplicates (List.concat (fst bo)))))).
Proof.
  split.
  - unfold save_worker_process; revert file.
    induction batches as [|[b o] bs IH]; intro file; cbn [fold_left map List.concat fst snd].
    + now rewrite app_nil_r.
    + rewrite IH, app_assoc; f_equal.
      destruct b as [|fr b]; [nil_written o | reflexivity].
  - intros bo _; apply nodup_written, drop_duplicates_from_nodup.
Qed.

End OutputClaims.

(* ------------------------------------------------------------------ *)
(** ** [ResultBuffer] *)

Module BufferFacts.
Import Sink Buffer.

Section Subseq.
Context {A : Type}.

Lemma subseq_refl (l : list A) : subseq l l.
Proof. induction l; constructor; assumption. Qed.

Lemma subseq_app_l (p l1 l2 : list A) : subseq l1 l2 -> subseq (p ++ l1) (p ++ l2).
Proof. intro H; induction p as [|x p IH]; [exact H|]; apply subseq_take, IH. Qed.

Lemma subseq_insert (m l : list A) : subseq l (m ++ l).
Proof. induction m as [|x m IH]; [apply subseq_refl|]; apply subseq_skip, IH. Qed.

Lemma subseq_nil_l (l : list A) : subseq [] l.
Proof. induction l; constructor; assumption. Qed.

Lemma subseq_trans (l1 l2 l3 : list A) : subseq l1 l2 -> subseq l2 l3 -> subseq l1 l3.
Proof.
  intros H12 H23; revert l1 H12; induction H23 as [|x l2 l3 H IH|x l2 l3 H IH];
    intros l1 H12.
  - exact H12.
  - apply subseq_skip, IH, H12.
  - inversion H12; subst.
    + apply subseq_skip, IH; assumption.
    + apply subseq_take, IH; assumption.
Qed.

Lemma subseq_app_r (l1 l2 s : list A) : subseq l1 l2 -> subseq (l1 ++ s) (l2 ++ s).
Proof.
  intro H; induction H; cbn; [apply subseq_refl | apply subseq_skip | apply subseq_take];
    assumption.
Qed.

End Subseq.

Lemma flush_inv b :
  output (flush b Done) ++ List.concat (buf (flush b Done)) = output b ++ List.concat (buf b)
  /\ total_saved (flush b Done) + List.length (List.concat (buf (flush b Done)))
     = total_saved b + List.length (List.concat (buf b))
  /\ batch_size (flush b Done) = batch_size b
  /\ interrupted (flush b Done) = interrupted b.
Proof.
  unfold flush; destruct (buf b) as [|x xs] eqn:E; [rewrite E; auto|].
  destruct (interrupted b) eqn:Ei; [rewrite E; auto|].
  cbn [output buf total_saved batch_size interrupted].
  cbn [List.concat List.length]; rewrite !app_nil_r; repeat split; lia.
Qed.

(** A flush, failed or not, keeps every row in the file or in memory. *)
Lemma flush_any b o :
  subseq (output b ++ List.concat (buf b)) (output (flush b o) ++ List.concat (buf (flush b o)))
  /\ total_saved (flush b o) + List.length (List.concat (buf (flush b o)))
     = total_saved b + List.length (List.concat (buf b))
  /\ batch_size (flush b o) = batch_size b
  /\ interrupted (flush b o) = interrupted b.
Proof.
  destruct o as [|k].
  - destruct (flush_inv b) as [H1 [H2 [H3 H4]]]; rewrite H1; split; [apply subseq_refl|auto].
  - unfold flush; destruct (buf b) as [|x xs] eqn:E;
      [rewrite E; split; [apply subseq_refl|auto]|].
    destruct (interrupted b) eqn:Ei; [rewrite E; split; [apply subseq_refl|auto]|].
    cbn [output buf total_saved batch_size interrupted].
    split; [|auto].
    rewrite <- app_assoc; apply subseq_app_l, subseq_insert.
Qed.

Lemma flush_clears b :
  interrupted b = false -> buf (flush b Done) = [].
Proof.
  intro Hi; unfold flush; destruct (buf b) eqn:E; [exact E|]; now rewrite Hi.
Qed.

Lemma flush_interrupted b o : interrupted b = true -> flush b o = b.
Proof. intro Hi; unfold flush; destruct (buf b); [reflexivity|]; now rewrite Hi. Qed.

Lemma auto_flush_eq b o : auto_flush b o = flush b o.
Proof. unfold auto_flush, flush; destruct (buf b); reflexivity. Qed.

Lemma final_flush_eq b o : final_flush b o = flush b o.
Proof.
  unfold final_flush, flush; destruct (buf b); [reflexivity|].
  destruct (interrupted b); reflexivity.
Qed.

(** [add_result] before the flush it may trigger. *)
Lemma add_result_cases b r o :
  add_result b r o = b /\ accepted r = []
  \/ exists data, accepted r = data
     /\ let b' := mkBuffer (output b) (buf b ++ [data]) (batch_size b)
                    (total_saved b) (interrupted b) in
        add_result b r o = if batch_size b' <=? List.length (buf b') then flush b' o else b'.
Proof.
  unfold add_result, accepted.
  destruct (s_success r); cbn [negb andb]; [|left; auto].
  destruct (poi_count r =? 0); cbn [negb]; [left; auto|].
  destruct (s_data r) as [[|x xs]|]; [left; auto| |left; auto].
  right; exists (x :: xs); split; reflexivity.
Qed.

Lemma add_result_inv b r :
  output (add_result b r Done) ++ List.concat (buf (add_result b r Done))
    = output b ++ List.concat (buf b) ++ accepted r
  /\ total_saved (add_result b r Done) + List.length (List.concat (buf (add_result b r Done)))
     = total_saved b + List.length (List.concat (buf b)) + List.length (accepted r)
  /\ batch_size (add_result b r Done) = batch_size b
  /\ interrupted (add_result b r Done) = interrupted b.
Proof.
  destruct (add_result_cases b r Done) as [[-> ->]|[data [-> Hb]]];
    [rewrite !app_nil_r; cbn; repeat split; lia|].
  cbv zeta in Hb; rewrite Hb.
  set (b' := mkBuffer (output b) (buf b ++ [data]) (batch_size b)
               (total_saved b) (interrupted b)).
  assert (H' : output b' ++ List.concat (buf b') = output b ++ List.concat (buf b) ++ data
               /\ total_saved b' + List.length (List.concat (buf b'))
                  = total_saved b + List.length (List.concat (buf b)) + List.length data
               /\ batch_size b' = batch_size b /\ interrupted b' = interrupted b).
  { cbn [output buf total_saved batch_size interrupted b'].
    rewrite concat_app; cbn [List.concat]; rewrite app_nil_r, length_app, app_assoc.
    repeat split; lia. }
  destruct (batch_size b' <=? List.length (buf b')); [|exact H'].
  destruct (flush_inv b') as [H1 [H2 [H3 H4]]]; rewrite H1, H2, H3, H4; exact H'.
Qed.

Lemma add_result_any b r o :
  subseq (output b ++ List.concat (buf b) ++ accepted r)
    (output (add_result b r o) ++ List.concat (buf (add_result b r o)))
  /\ total_saved (add_result b r o) + List.length (List.concat (buf (add_result b r o)))
     = total_saved b + List.length (List.concat (buf b)) + List.length (accepted r)
  /\ batch_size (add_result b r o) = batch_size b.
Proof.
  destruct (add_result_cases b r o) as [[-> ->]|[data [-> Hb]]];
    [rewrite !app_nil_r; cbn [List.length]; split; [apply subseq_refl|]; split; [lia|reflexivity]|].
  cbv zeta in Hb; rewrite Hb.
  set (b' := mkBuffer (output b) (buf b ++ [data]) (batch_size b)
               (total_saved b) (interrupted b)).
  assert (H' : output b' ++ List.concat (buf b') = output b ++ List.concat (buf b) ++ data
               /\ total_saved b' + List.length (List.concat (buf b'))
                  = total_saved b + List.length (List.concat (buf b)) + List.length data
               /\ batch_size b' = batch_size b).
  { cbn [output buf total_saved batch_size interrupted b'].
    rewrite concat_app; cbn [List.concat]; rewrite app_nil_r, length_app, app_assoc.
    repeat split; lia. }
  destruct H' as [E1 [E2 E3]].
  destruct (batch_size b' <=? List.length (buf b'));
    [|rewrite E1; split; [apply subseq_refl|]; split; [exact E2|exact E3]].
  destruct (flush_any b' o) as [H1 [H2 [H3 _]]].
  rewrite <- E1; split; [exact H1|]; split; [rewrite H2; exact E2|rewrite H3; exact E3].
Qed.

Lemma exec_inv b e :
  writes_succeed [e] = true ->
  output (exec b e) ++ List.concat (buf (exec b e))
    = output b ++ List.concat (buf b) ++ added_rows [e]
  /\ total_saved (exec b e) + List.length (List.concat (buf (exec b e)))
     = total_saved b + List.length (List.concat (buf b)) + List.length (added_rows [e])
  /\ batch_size (exec b e) = batch_size b
  /\ (interrupted (exec b e) = interrupted b \/ e = Interrupt).
Proof.
  intro Hw; unfold added_rows; cbn [map List.concat]; rewrite app_nil_r.
  destruct e as [r o|o|o|]; cbn [exec];
    try (destruct o; [|discriminate Hw]).
  - destruct (add_result_inv b r) as [H1 [H2 [H3 H4]]]; auto.
  - rewrite auto_flush_eq; destruct (flush_inv b) as [H1 [H2 [H3 H4]]].
    rewrite H1, H2, app_nil_r; cbn [List.length]; repeat split; auto; lia.
  - rewrite final_flush_eq; destruct (flush_inv b) as [H1 [H2 [H3 H4]]].
    rewrite H1, H2, app_nil_r; cbn [List.length]; repeat split; auto; lia.
  - cbn; rewrite !app_nil_r; repeat split; auto; lia.
Qed.

Lemma exec_any b e :
  subseq (output b ++ List.concat (buf b) ++ added_rows [e])
    (output (exec b e) ++ List.concat (buf (exec b e)))
  /\ total_saved (exec b e) + List.length (List.concat (buf (exec b e)))
     = total_saved b + List.length (List.concat (buf b)) + List.length (added_rows [e]).
Proof.
  unfold added_rows; cbn [map List.concat]; rewrite app_nil_r.
  destruct e as [r o|o|o|]; cbn [exec].
  - destruct (add_result_any b r o) as [H1 [H2 _]]; auto.
  - rewrite auto_flush_eq; destruct (flush_any b o) as [H1 [H2 _]].
    rewrite app_nil_r; split; [exact H1|]; cbn [List.length]; lia.
  - rewrite final_flush_eq; destruct (flush_any b o) as [H1 [H2 _]].
    rewrite app_nil_r; split; [exact H1|]; cbn [List.length]; lia.
  - cbn; rewrite !app_nil_r; split; [apply subseq_refl|lia].
Qed.

Lemma added_rows_cons e es : added_rows (e :: es) = added_rows [e] ++ added_rows es.
Proof. unfold added_rows; cbn; now rewrite app_nil_r. Qed.

Lemma buffer_run_inv b es :
  no_interrupt es = true -> writes_succeed es = true ->
  output (run b es) ++ List.concat (buf (run b es))
    = output b ++ List.concat (buf b) ++ added_rows es
  /\ total_saved (run b es) + List.length (List.concat (buf (run b es)))
     = total_saved b + List.length (List.concat (buf b)) + List.length (added_rows es)
  /\ batch_size (run b es) = batch_size b
  /\ interrupted (run b es) = interrupted b.
Proof.
  revert b; induction es as [|e es IH]; intros b Hn Hw; cbn [run fold_left].
  - unfold added_rows; cbn; rewrite !app_nil_r; repeat split; lia.
  - cbn [no_interrupt writes_succeed forallb] in Hn, Hw.
    apply andb_true_iff in Hn as [He Hn]; apply andb_true_iff in Hw as [Hwe Hw].
    change (fold_left exec es (exec b e)) with (run (exec b e) es).
    destruct (IH (exec b e) Hn Hw) as [H1 [H2 [H3 H4]]].
    destruct (exec_inv b e) as [E1 [E2 [E3 E4]]]; [cbn; rewrite Hwe; reflexivity|].
    destruct E4 as [E4|E4]; [|subst e; discriminate].
    split; [rewrite added_rows_cons, H1, app_assoc, E1, <- !app_assoc; reflexivity|].
    split; [rewrite added_rows_cons, H2, E2, length_app; lia|].
    split; congruence.
Qed.

End BufferFacts.

Module BufferClaims.
Import Sink Buffer BufferFacts.

(** Without an interrupt and when every write succeeds, [ResultBuffer]
    loses nothing and writes nothing twice: after any interleaving of
    [add_result] and [auto_flush] calls, [final_flush] leaves the buffer
    empty and the CSV holds its previous rows followed by the rows of
    every accepted result (successful, [poi_count] non-zero, non-empty
    frame), in order; [total_saved] grows by the number of rows
    written. *)
Theorem result_buffer_no_loss (b : buffer) (es : list event) :
  interrupted b = false -> no_interrupt es = true -> writes_succeed es = true ->
  output (final_flush (run b es) Done) = output b ++ List.concat (buf b) ++ added_rows es
  /\ buf (final_flush (run b es) Done) = []
  /\ total_saved (final_flush (run b es) Done)
     = total_saved b + List.length (List.concat (buf b) ++ added_rows es).
Proof.
  intros Hi Hn Hw.
  destruct (buffer_run_inv b es Hn Hw) as [H1 [H2 [_ H4]]].
  set (b' := run b es) in *.
  rewrite final_flush_eq.
  destruct (flush_inv b') as [F1 [F2 _]].
  pose proof (flush_clears b' ltac:(now rewrite H4)) as Hc.
  rewrite Hc in F1, F2; cbn [List.concat List.length] in F1, F2.
  rewrite app_nil_r in F1.
  split; [rewrite F1; exact H1|]; split; [exact Hc|].
  rewrite length_app; lia.
Qed.

Lemma result_buffer_no_loss_witness :
  let b := mkBuffer [] [] 2 0 false in
  let es := [Add (mkSResult true 1 (Some [Scenarios.row_a])) Done;
             Add (mkSResult false 0 None) Done;
             Add (mkSResult true 1 (Some [Scenarios.row_b])) Done;
             Auto Done;
             Add (mkSResult true 1 (Some [Scenarios.row_a])) Done] in
  output (final_flush (run b es) Done) = [Scenarios.row_a; Scenarios.row_b; Scenarios.row_a]
  /\ buf (final_flush (run b es) Done) = [].
Proof.
  intros b es.
  destruct (result_buffer_no_loss b es eq_refl eq_refl eq_refl) as [H1 [H2 _]].
  split; [rewrite H1; reflexivity | exact H2].
Defined.

(** Without an interrupt and when every write succeeds, [add_result]
    keeps fewer than [batch_size] frames in the buffer: reaching
    [batch_size] flushes it. *)
Theorem result_buffer_bounded (b : buffer) (es : list event) :
  interrupted b = false -> no_interrupt es = true -> writes_succeed es = true ->
  List.length (buf b) < batch_size b ->
  List.length (buf (run b es)) < batch_size b.
Proof.
  revert b; induction es as [|e es IH]; intros b Hi Hn Hw Hl; cbn [run fold_left]; [exact Hl|].
  cbn [no_interrupt writes_succeed forallb] in Hn, Hw.
  apply andb_true_iff in Hn as [He Hn]; apply andb_true_iff in Hw as [Hwe Hw].
  change (fold_left exec es (exec b e)) with (run (exec b e) es).
  destruct (exec_inv b e) as [_ [_ [E3 E4]]]; [cbn; rewrite Hwe; reflexivity|].
  destruct E4 as [E4|E4]; [|subst e; discriminate].
  rewrite <- E3; apply IH; [congruence|exact Hn|exact Hw|]; rewrite E3.
  destruct e as [r o|o|o|]; cbn [exec] in *; try (destruct o; [|discriminate Hwe]).
  - unfold add_result.
    destruct (negb (s_success r)); [exact Hl|].
    destruct (poi_count r =? 0); [exact Hl|].
    destruct (s_data r) as [[|x xs]|]; [exact Hl| |exact Hl].
    cbn [batch_size buf]; destruct (batch_size b <=? List.length (buf b ++ [x :: xs])) eqn:E.
    + rewrite flush_clears by exact Hi; cbn; lia.
    + apply Nat.leb_gt in E; exact E.
  - rewrite auto_flush_eq, flush_clears by exact Hi; cbn; lia.
  - rewrite final_flush_eq, flush_clears by exact Hi; cbn; lia.
  - discriminate.
Qed.

Lemma result_buffer_bounded_witness :
  List.length (buf (run (mkBuffer [] [] 2 0 false)
     [Add (mkSResult true 1 (Some [Scenarios.row_a])) Done;
      Add (mkSResult true 1 (Some [Scenarios.row_b])) Done;
      Add (mkSResult true 1 (Some [Scenarios.row_a])) Done])) < 2.
Proof.
  apply result_buffer_bounded; [reflexivity | reflexivity | reflexivity | cbn; lia].
Defined.

(** Once the interrupt flag is set, [ResultBuffer] writes nothing more:
    [add_result], [auto_flush] and [final_flush] leave the CSV as it
    is, and the accepted rows stay in memory, lost when the process
    exits. *)
Theorem result_buffer_interrupted (b : buffer) (es : list event) :
  interrupted b = true ->
  output (run b es) = output b
  /\ List.concat (buf (run b es)) = List.concat (buf b) ++ added_rows es.
Proof.
  revert b; induction es as [|e es IH]; intros b Hi; cbn [run fold_left].
  - unfold added_rows; cbn; now rewrite app_nil_r.
  - change (fold_left exec es (exec b e)) with (run (exec b e) es).
    assert (Hs : output (exec b e) = output b
                 /\ List.concat (buf (exec b e)) = List.concat (buf b) ++ added_rows [e]
                 /\ interrupted (exec b e) = true).
    { unfold added_rows; cbn [map List.concat]; rewrite app_nil_r.
      destruct e as [r o|o|o|]; cbn [exec].
      - destruct (add_result_cases b r o) as [[-> ->]|[data [-> Hb]]];
          [now rewrite app_nil_r|].
        cbv zeta in Hb; rewrite Hb.
        destruct (_ <=? _); [rewrite flush_interrupted by (cbn; exact Hi)|];
          cbn; rewrite concat_app; cbn; now rewrite app_nil_r.
      - rewrite auto_flush_eq, flush_interrupted by exact Hi; now rewrite app_nil_r.
      - rewrite final_flush_eq, flush_interrupted by exact Hi; now rewrite app_nil_r.
      - cbn; now rewrite app_nil_r. }
    destruct Hs as [S1 [S2 S3]].
    destruct (IH (exec b e) S3) as [I1 I2].
    rewrite I1, I2, S1, S2, (added_rows_cons e es), app_assoc; split; reflexivity.
Qed.

Lemma result_buffer_interrupted_witness :
  let b := mkBuffer [Scenarios.row_b] [] 2 1 true in
  output (run b [Add (mkSResult true 1 (Some [Scenarios.row_a])) Done;
                 Add (mkSResult true 1 (Some [Scenarios.row_a])) Done; Final Done])
  = [Scenarios.row_b].
Proof. intro b; exact (proj1 (result_buffer_interrupted b _ eq_refl)). Defined.

(** Whatever flushes fail and whenever the interrupt comes,
    [ResultBuffer] never drops an accepted row: the CSV followed by the
    buffer still holds the earlier rows and every accepted row, in
    order, possibly with rows a failed [to_csv] wrote before its
    exception (written again by the next flush); [total_saved] counts
    the rows of the successful flushes only. *)
Theorem result_buffer_failed_flush (b : buffer) (es : list event) :
  subseq (output b ++ List.concat (buf b) ++ added_rows es)
    (output (run b es) ++ List.concat (buf (run b es)))
  /\ total_saved (run b es) + List.length (List.concat (buf (run b es)))
     = total_saved b + List.length (List.concat (buf b)) + List.length (added_rows es).
Proof.
  revert b; induction es as [|e es IH]; intro b; cbn [run fold_left].
  - unfold added_rows; cbn; rewrite !app_nil_r; split; [apply subseq_refl|lia].
  - change (fold_left exec es (exec b e)) with (run (exec b e) es).
    destruct (IH (exec b e)) as [H1 H2].
    destruct (exec_any b e) as [E1 E2].
    split.
    + rewrite added_rows_cons.
      apply (subseq_trans _ (output (exec b e) ++ List.concat (buf (exec b e)) ++ added_rows es));
        [|exact H1].
      replace (output b ++ List.concat (buf b) ++ added_rows [e] ++ added_rows es)
        with ((output b ++ List.concat (buf b) ++ added_rows [e]) ++ added_rows es)
        by (rewrite <- !app_assoc; reflexivity).
      rewrite (app_assoc (output (exec b e))); apply subseq_app_r; exact E1.
    + rewrite added_rows_cons, length_app, H2, E2; lia.
Qed.

End BufferClaims.

(* ------------------------------------------------------------------ *)
(** ** Address loading *)

Module AddressFacts.
Import Addresses.

Section WithStrip.
Variable strip : string -> string.

Lemma load_from_In i rows t :
  In t (load_addresses_from strip i rows) <->
  exists j row, nth_error rows j = Some row /\ Dispatch.index t = i + j
    /\ simple_address strip row = Some (Dispatch.address t)
    /\ str_truthy (Dispatch.address t) = true
    /\ Dispatch.original_address t = Address row
    /\ Dispatch.is_retry t = false.
Proof.
  split.
  - revert i; induction rows as [|row rest IH]; intros i H; cbn [load_addresses_from] in H;
      [destruct H|].
    assert (Htl : In t (load_addresses_from strip (S i) rest) ->
                  exists j row', nth_error (row :: rest) j = Some row'
                    /\ Dispatch.index t = i + j
                    /\ simple_address strip row' = Some (Dispatch.address t)
                    /\ str_truthy (Dispatch.address t) = true
                    /\ Dispatch.original_address t = Address row'
                    /\ Dispatch.is_retry t = false).
    { intro Ht; destruct (IH (S i) Ht) as [j [r' [H1 [H2 H3]]]].
      exists (S j), r'; split; [exact H1|]; split; [lia|exact H3]. }
    destruct (simple_address strip row) as [a|] eqn:Ea; [|exact (Htl H)].
    destruct (str_truthy a) eqn:Et; [|exact (Htl H)].
    destruct H as [<-|H]; [|exact (Htl H)].
    exists 0, row; cbn; repeat split; auto; lia.
  - revert i; induction rows as [|row rest IH]; intros i [j [r' [H1 [H2 [H3 [H4 [H5 H6]]]]]]];
      [destruct j; discriminate|].
    destruct j as [|j].
    + cbn in H1; injection H1 as <-; cbn [load_addresses_from]; rewrite H3, H4; left.
      destruct t as [ad ix oa ir]; cbn in *; subst; f_equal; lia.
    + assert (Ht : In t (load_addresses_from strip (S i) rest))
        by (apply IH; exists j, r'; repeat split; auto; lia).
      cbn [load_addresses_from].
      destruct (simple_address strip row) as [a|]; [|exact Ht].
      destruct (str_truthy a); [right|]; exact Ht.
Qed.

Lemma load_from_ge i rows t :
  In t (load_addresses_from strip i rows) -> i <= Dispatch.index t.
Proof. intro H; apply load_from_In in H as [j [row [_ [H _]]]]; lia. Qed.

Lemma load_from_sorted i rows :
  StronglySorted lt (map Dispatch.index (load_addresses_from strip i rows)).
Proof.
  revert i; induction rows as [|row rest IH]; intro i; cbn; [constructor|].
  destruct (simple_address strip row) as [a|]; [|apply IH].
  destruct (str_truthy a); [|apply IH].
  cbn; constructor; [apply IH|].
  apply Forall_forall; intros x Hx; apply in_map_iff in Hx as [t [<- Ht]].
  apply load_from_ge in Ht; cbn; lia.
Qed.

Lemma stripped_falsy c : opt_truthy (stripped_if_truthy strip c) = false -> stripped_if_truthy strip c = None.
Proof.
  unfold stripped_if_truthy; destruct c as [s|]; [|reflexivity].
  destruct (str_truthy (strip s)) eqn:E; [cbn; now rewrite E|reflexivity].
Qed.

Lemma turbo_nth i rows j row :
  nth_error rows j = Some row ->
  nth_error (turbo_addresses_from strip i rows) j = Some (turbo_address_obj strip (i + j) row).
Proof.
  revert i j; induction rows as [|r rest IH]; intros i [|j] H; cbn in H; try discriminate.
  - injection H as <-; cbn; now rewrite Nat.add_0_r.
  - cbn; rewrite (IH (S i) j H); do 2 f_equal; lia.
Qed.

Lemma turbo_length i rows : List.length (turbo_addresses_from strip i rows) = List.length rows.
Proof. revert i; induction rows; intro i; cbn; auto. Qed.

Lemma hybrid_from_In i rows o :
  In o (hybrid_addresses_from strip i rows) <->
  exists j row, nth_error rows j = Some row /\ o = hybrid_address_obj strip (i + j) row
    /\ (opt_truthy (primary o) || opt_truthy (secondary o)) = true.
Proof.
  split.
  - revert i; induction rows as [|row rest IH]; intros i H; cbn [hybrid_addresses_from] in H;
      [destruct H|].
    assert (Htl : In o (hybrid_addresses_from strip (S i) rest) ->
                  exists j row', nth_error (row :: rest) j = Some row'
                    /\ o = hybrid_address_obj strip (i + j) row'
                    /\ (opt_truthy (primary o) || opt_truthy (secondary o)) = true).
    { intro Ho; destruct (IH (S i) Ho) as [j [r' [H1 [H2 H3]]]].
      exists (S j), r'; split; [exact H1|]; split; [|exact H3].
      rewrite H2; f_equal; lia. }
    destruct (opt_truthy (primary (hybrid_address_obj strip i row))
              || opt_truthy (secondary (hybrid_address_obj strip i row))) eqn:Ek;
      [|exact (Htl H)].
    destruct H as [<-|H]; [|exact (Htl H)].
    exists 0, row; rewrite Nat.add_0_r; split; [reflexivity|]; split; [reflexivity|exact Ek].
  - revert i; induction rows as [|row rest IH]; intros i [j [r' [H1 [H2 H3]]]];
      [destruct j; discriminate|].
    cbn [hybrid_addresses_from]; cbv zeta.
    destruct j as [|j].
    + cbn in H1; injection H1 as <-; rewrite Nat.add_0_r in H2; subst o.
      rewrite H3; left; reflexivity.
    + assert (Ho : In o (hybrid_addresses_from strip (S i) rest)).
      { apply IH; exists j, r'; split; [exact H1|]; split; [|exact H3].
        rewrite H2; f_equal; lia. }
      cbv zeta.
      destruct (opt_truthy (primary (hybrid_address_obj strip i row))
                || opt_truthy (secondary (hybrid_address_obj strip i row)));
        [right|]; exact Ho.
Qed.

End WithStrip.

End AddressFacts.

Module AddressClaims.
Import Addresses AddressFacts.

(** [load_addresses_from_csv] (simple crawler): a task is produced for
    exactly the rows whose chosen address ([FormattedAddress].strip()
    when that cell is present, else [Address], else
    [ConvertedAddress].strip()) is a non-empty string; the task carries
    the row position as [index] and the row's [Address] as
    [original_address], and the indices strictly increase. *)
Theorem load_addresses_spec (strip : string -> string) (rows : list csv_row) :
  (forall t, In t (load_addresses_from_csv strip rows) <->
     exists row, nth_error rows (Dispatch.index t) = Some row
       /\ simple_address strip row = Some (Dispatch.address t)
       /\ str_truthy (Dispatch.address t) = true
       /\ Dispatch.original_address t = Address row
       /\ Dispatch.is_retry t = false)
  /\ StronglySorted lt (map Dispatch.index (load_addresses_from_csv strip rows)).
Proof.
  split; [|apply load_from_sorted].
  intro t; unfold load_addresses_from_csv; rewrite load_from_In; split.
  - intros [j [row [H1 [H2 H3]]]]; exists row; cbn in H2; rewrite H2; auto.
  - intros [row [H1 H2]]; exists (Dispatch.index t), row; auto.
Qed.

(** The turbo crawler builds one address object per CSV row, with the
    row position as [index]; its [address] is the first non-empty value
    among [FormattedAddress].strip(), [Address] and
    [ConvertedAddress].strip(), and [None] when all are empty or
    missing (the row is still kept). *)
Theorem turbo_address_first_truthy (strip : string -> string) (rows : list csv_row) :
  List.length (turbo_addresses_from strip 0 rows) = List.length rows
  /\ forall i row, nth_error rows i = Some row ->
       exists o, nth_error (turbo_addresses_from strip 0 rows) i = Some o
         /\ obj_index o = i
         /\ primary o = first_truthy [stripped_if_truthy strip (FormattedAddress row);
                                      Address row;
                                      stripped_if_truthy strip (ConvertedAddress row)].
Proof.
  split; [apply turbo_length|].
  intros i row H; exists (turbo_address_obj strip i row); split; [exact (turbo_nth strip 0 rows i row H)|].
  unfold turbo_address_obj; cbn [first_truthy].
  set (p := stripped_if_truthy strip (FormattedAddress row)).
  set (f := stripped_if_truthy strip (ConvertedAddress row)).
  destruct (opt_truthy p) eqn:Ep; cbn [negb andb].
  - destruct (opt_truthy f); split; reflexivity.
  - destruct (opt_truthy (Address row)) eqn:Es; [split; reflexivity|].
    destruct (opt_truthy f) eqn:Ef; split; try reflexivity.
    cbn; apply stripped_falsy; exact Ep.
Qed.

(** The hybrid crawler keeps exactly the rows whose chosen primary
    address ([FormattedAddress].strip(), else
    [ConvertedAddress].strip(), else [Address]) or whose [Address] is a
    non-empty string, each with its row position as [index] and
    [Address] as [secondary]. *)
Theorem hybrid_addresses_spec (strip : string -> string) (rows : list csv_row) (o : addr_obj) :
  In o (hybrid_addresses_from strip 0 rows) <->
  exists row, nth_error rows (obj_index o) = Some row
    /\ o = hybrid_address_obj strip (obj_index o) row
    /\ secondary o = Address row
    /\ (opt_truthy (primary o) || opt_truthy (Address row)) = true.
Proof.
  rewrite hybrid_from_In; split.
  - intros [j [row [H1 [H2 H3]]]]; cbn in H2.
    assert (Hi : obj_index o = j) by (rewrite H2; reflexivity).
    exists row; rewrite Hi; split; [exact H1|]; split; [exact H2|].
    assert (Hs : secondary o = Address row) by (rewrite H2; reflexivity).
    split; [exact Hs|]; rewrite <- Hs; exact H3.
  - intros [row [H1 [H2 [H3 H4]]]]; exists (obj_index o), row; cbn.
    split; [exact H1|]; split; [exact H2|]; rewrite H3; exact H4.
Qed.

(** The three crawlers choose differently for a row without a usable
    [FormattedAddress] that has both an [Address] and a
    [ConvertedAddress]: the simple and turbo crawlers use [Address],
    the hybrid crawler uses [ConvertedAddress].strip().  When the
    [FormattedAddress] cell is present but blank after [strip()], the
    simple crawler drops the row altogether. *)
Theorem address_choice_differs (strip : string -> string) (row : csv_row) (a c : string) :
  Address row = Some a -> str_truthy a = true ->
  ConvertedAddress row = Some c -> str_truthy (strip c) = true ->
  opt_truthy (stripped_if_truthy strip (FormattedAddress row)) = false ->
  primary (turbo_address_obj strip 0 row) = Some a
  /\ primary (hybrid_address_obj strip 0 row) = Some (strip c)
  /\ (FormattedAddress row = None -> load_addresses_from_csv strip [row]
                                     = [Dispatch.mkTask a 0 (Some a) false])
  /\ (forall fa, FormattedAddress row = Some fa -> strip fa = EmptyString ->
        load_addresses_from_csv strip [row] = []).
Proof.
  intros Ha Hat Hc Hct Hp.
  pose proof (stripped_falsy strip _ Hp) as Hn.
  split; [|split; [|split]].
  - unfold turbo_address_obj; rewrite Hp, Ha; cbn [opt_truthy negb andb]; rewrite Hat; reflexivity.
  - unfold hybrid_address_obj; rewrite Hn; unfold stripped_if_truthy at 1; rewrite Hc, Hct.
    reflexivity.
  - intro Hf; unfold load_addresses_from_csv; cbn; unfold simple_address; rewrite Hf, Ha, Hat.
    reflexivity.
  - intros fa Hf Hs; unfold load_addresses_from_csv; cbn; unfold simple_address; rewrite Hf, Hs.
    reflexivity.
Qed.

Lemma address_choice_differs_witness :
  let strip := fun s : string => s in
  let row := mkCsvRow (Some EmptyString) (Some "Tokyo Shibuya 1-2-3"%string)
               (Some "1-2-3 Shibuya"%string) in
  primary (turbo_address_obj strip 0 row) = Some "Tokyo Shibuya 1-2-3"%string
  /\ primary (hybrid_address_obj strip 0 row) = Some "1-2-3 Shibuya"%string
  /\ load_addresses_from_csv strip [row] = [].
Proof.
  intros strip row.
  destruct (address_choice_differs strip row "Tokyo Shibuya 1-2-3" "1-2-3 Shibuya"
              eq_refl eq_refl eq_refl eq_refl eq_refl) as [H1 [H2 [_ H4]]].
  split; [exact H1|]; split; [exact H2|]; exact (H4 EmptyString eq_refl eq_refl).
Defined.

End AddressClaims.

(* ------------------------------------------------------------------ *)
(** ** District names *)

Module DistrictFacts.
Import District.

Lemma split_first_prefix p r : ~ In ku p -> split_first (p ++ ku :: r) = p.
Proof.
  induction p as [|c p IH]; intro Hn; cbn [app split_first].
  - rewrite Nat.eqb_refl; reflexivity.
  - destruct (Nat.eqb c ku) eqn:E.
    + apply Nat.eqb_eq in E; subst c; exfalso; apply Hn; left; reflexivity.
    + f_equal; apply IH; intro H; apply Hn; right; exact H.
Qed.

Lemma existsb_ku_In f : existsb (Nat.eqb ku) f = true <-> In ku f.
Proof.
  rewrite existsb_exists; split.
  - intros [x [Hx E]]; apply Nat.eqb_eq in E; subst x; exact Hx.
  - intro H; exists ku; split; [exact H | apply Nat.eqb_refl].
Qed.

Lemma not_in_ku f : existsb (Nat.eqb ku) f = false -> ~ In ku f.
Proof.
  intros E H; apply existsb_ku_In in H; congruence.
Qed.

End DistrictFacts.

Module DistrictClaims.
Import District DistrictFacts.


(** [_extract_district_name] (turbo, hybrid): for a file stem that
    contains the ward suffix [区], the district name is the text up to
    and including its first occurrence, whatever follows; a stem
    without [区] gives ["unknown_district"]. *)
Theorem extract_district_name_spec (p r f : list nat) :
  (~ In ku p -> extract_district_name (p ++ ku :: r) = p ++ [ku])
  /\ (~ In ku f -> extract_district_name f = unknown_district).
Proof.
  split; intro Hn; unfold extract_district_name.
  - assert (Hin : existsb (Nat.eqb ku) (p ++ ku :: r) = true)
      by (apply existsb_ku_In, in_or_app; right; left; reflexivity).
    rewrite Hin, split_first_prefix by exact Hn; reflexivity.
  - destruct (existsb (Nat.eqb ku) f) eqn:E; [|reflexivity].
    apply existsb_ku_In in E; contradiction.
Qed.

(** 新宿区_part1 and 新宿区_part2 share the district 新宿区; a stem
    without 区 falls back to [unknown_district]. *)
Lemma extract_district_name_spec_witness :
  extract_district_name ([26032; 23487] ++ ku :: [95; 112; 49]) = [26032; 23487; ku]
  /\ extract_district_name ([26032; 23487] ++ ku :: [95; 112; 50]) = [26032; 23487; ku]
  /\ extract_district_name [116; 111; 107; 121; 111] = unknown_district.
Proof.
  split; [|split].
  - apply (proj1 (extract_district_name_spec [26032; 23487] [95; 112; 49] []));
      apply not_in_ku; vm_compute; reflexivity.
  - apply (proj1 (extract_district_name_spec [26032; 23487] [95; 112; 50] []));
      apply not_in_ku; vm_compute; reflexivity.
  - apply (proj2 (extract_district_name_spec [] [] [116; 111; 107; 121; 111]));
      apply not_in_ku; vm_compute; reflexivity.
Defined.

End DistrictClaims.

(* ------------------------------------------------------------------ *)
(** ** Task feeding *)

Module FeederFacts.
Import Feeder.

Section Tasks.
Context {A : Type}.

Lemma feed_chunk_spec (maxsize k : nat) (pending q : list A) :
  k <= List.length pending ->
  feed_chunk k maxsize pending q =
  if k <=? maxsize - List.length q
  then (skipn k pending, q ++ firstn k pending, None)
  else (skipn (S (maxsize - List.length q)) pending,
        q ++ firstn (maxsize - List.length q) pending,
        nth_error pending (maxsize - List.length q)).
Proof.
  revert pending q; induction k as [|k IH]; intros pending q Hk.
  - cbn; rewrite app_nil_r; reflexivity.
  - destruct pending as [|task pending']; [cbn in Hk; lia|].
    cbn [List.length] in Hk; cbn [feed_chunk].
    destruct (List.length q <? maxsize) eqn:Eq.
    + apply Nat.ltb_lt in Eq.
      rewrite IH by lia; rewrite length_app; cbn [List.length].
      replace (maxsize - (List.length q + 1)) with (maxsize - List.length q - 1) by lia.
      remember (maxsize - List.length q) as room eqn:Er.
      destruct room as [|room]; [lia|].
      replace (S room - 1) with room by lia.
      destruct (k <=? room) eqn:E1; destruct (S k <=? S room) eqn:E2;
        apply Nat.leb_le in E1 || apply Nat.leb_gt in E1;
        apply Nat.leb_le in E2 || apply Nat.leb_gt in E2; try lia.
      * cbn [skipn firstn]; rewrite <- app_assoc; reflexivity.
      * cbn [skipn firstn nth_error]; rewrite <- app_assoc; reflexivity.
    + apply Nat.ltb_ge in Eq.
      replace (maxsize - List.length q) with 0 by lia.
      cbn; rewrite app_nil_r; reflexivity.
Qed.

End Tasks.

End FeederFacts.

Module FeederClaims.
Import Feeder FeederFacts.

(** One round of [feed_tasks] (turbo and hybrid) while the queue has
    room and no worker takes a task: with [k = min(10, len(pending))]
    and [room = maxsize - qsize], when [k <= room] the first [k]
    pending tasks are appended to the queue; otherwise the first
    [room] tasks fill the queue, the next pending task is popped and
    lost when [put] times out on the full queue, and nothing else is
    touched. *)
Theorem feed_round_spec (maxsize : nat) {A : Type} (pending q : list A) :
  List.length q < maxsize ->
  feed_round maxsize pending q =
  let k := Nat.min 10 (List.length pending) in
  let room := maxsize - List.length q in
  if k <=? room
  then (skipn k pending, q ++ firstn k pending, None)
  else (skipn (S room) pending, q ++ firstn room pending, nth_error pending room).
Proof.
  intro Hq; unfold feed_round.
  assert (Hl : (List.length q <? maxsize) = true) by (apply Nat.ltb_lt; exact Hq).
  rewrite Hl, feed_chunk_spec by (apply Nat.le_min_r); reflexivity.
Qed.

(** A queue of 8 with 5 queued tasks and 12 pending: 3 are queued,
    the 4th is lost. *)
Lemma feed_round_spec_witness :
  feed_round 8 [1; 2; 3; 4; 5; 6; 7; 8; 9; 10; 11; 12] [100; 101; 102; 103; 104]
  = ([5; 6; 7; 8; 9; 10; 11; 12], [100; 101; 102; 103; 104; 1; 2; 3], Some 4).
Proof.
  rewrite (feed_round_spec 8 [1; 2; 3; 4; 5; 6; 7; 8; 9; 10; 11; 12]
             [100; 101; 102; 103; 104]) by (cbn; lia).
  reflexivity.
Defined.

End FeederClaims.

(* ------------------------------------------------------------------ *)
(** ** No-POI batch tracking *)

Module NoPoiFacts.
Import NoPoi.

Section Tracker.
Context {R : Type}.

Lemma dict_get_notin k (t : @tracker R) : ~ In k (map fst t) -> dict_get k t = None.
Proof.
  induction t as [|[k' v] t IH]; intro Hn; [reflexivity|]; cbn.
  destruct (Nat.eqb k' k) eqn:E.
  - apply Nat.eqb_eq in E; subst; exfalso; apply Hn; left; reflexivity.
  - apply IH; intro H; apply Hn; right; exact H.
Qed.

Lemma dict_get_last k v (t : @tracker R) :
  ~ In k (map fst t) -> dict_get k (t ++ [(k, v)]) = Some v.
Proof.
  induction t as [|[k' v'] t IH]; intro Hn; cbn.
  - rewrite Nat.eqb_refl; reflexivity.
  - destruct (Nat.eqb k' k) eqn:E.
    + apply Nat.eqb_eq in E; subst; exfalso; apply Hn; left; reflexivity.
    + apply IH; intro H; apply Hn; right; exact H.
Qed.

Lemma dict_update_last k f v (t : @tracker R) :
  ~ In k (map fst t) -> dict_update k f (t ++ [(k, v)]) = t ++ [(k, f v)].
Proof.
  induction t as [|[k' v'] t IH]; intro Hn; cbn.
  - rewrite Nat.eqb_refl; reflexivity.
  - destruct (Nat.eqb k' k) eqn:E.
    + apply Nat.eqb_eq in E; subst; exfalso; apply Hn; left; reflexivity.
    + f_equal; apply IH; intro H; apply Hn; right; exact H.
Qed.

Lemma track_all_snoc bs (t : @tracker R) rs r :
  track_all bs t (rs ++ [r]) =
  let '(t1, cs) := track_all bs t rs in
  let '(t2, c) := track_no_poi_result bs t1 r in
  (t2, cs ++ match c with Some b => [b] | None => [] end).
Proof.
  revert t; induction rs as [|r0 rs IH]; intro t; cbn [app track_all].
  - destruct (track_no_poi_result bs t r) as [t2 [b|]]; reflexivity.
  - destruct (track_no_poi_result bs t r0) as [t1 c0].
    rewrite IH.
    destruct (track_all bs t1 rs) as [t3 cs].
    destruct (track_no_poi_result bs t3 r) as [t2 c].
    destruct c0; reflexivity.
Qed.

Lemma keys_chunks bs (rs : list R) m : map fst (map (chunk bs rs) (seq 0 m)) = seq 0 m.
Proof.
  rewrite map_map; apply map_id.
Qed.

Lemma total_chunks bs (rs : list R) m :
  total_processed (map (chunk bs rs) (seq 0 m)) = Nat.min (List.length rs) (m * bs).
Proof.
  unfold total_processed; induction m as [|m IH]; [cbn; lia|].
  rewrite seq_S, !map_app, list_sum_app, IH; cbn [map list_sum snd chunk].
  rewrite length_firstn, length_skipn, Nat.mul_succ_l.
  unfold list_sum; cbn [fold_right]; rewrite Nat.add_0_l; lia.
Qed.

Lemma chunk_snoc bs (rs : list R) r b :
  b * bs + bs <= List.length rs -> chunk bs (rs ++ [r]) b = chunk bs rs b.
Proof.
  intro H; unfold chunk; f_equal.
  rewrite skipn_app, firstn_app, length_skipn.
  replace (bs - (List.length rs - b * bs)) with 0 by lia.
  rewrite firstn_O, app_nil_r; reflexivity.
Qed.

Lemma chunks_snoc bs (rs : list R) r m :
  m * bs <= List.length rs ->
  map (chunk bs (rs ++ [r])) (seq 0 m) = map (chunk bs rs) (seq 0 m).
Proof.
  intro H; apply map_ext_in; intros b Hb; apply in_seq in Hb.
  apply chunk_snoc.
  assert (b * bs + bs <= m * bs) by (replace (b * bs + bs) with (S b * bs) by lia;
                                      apply Nat.mul_le_mono_r; lia).
  lia.
Qed.

End Tracker.

End NoPoiFacts.

Module NoPoiClaims.
Import NoPoi NoPoiFacts.

(** [_track_no_poi_result] (turbo, hybrid) with [batch_size > 0],
    starting from the empty tracker: after the results [rs], the
    tracker holds the batches [0 .. m-1] in order, batch [b] holding
    the results [b*batch_size .. (b+1)*batch_size - 1] of [rs], with
    [m] the number of batches needed for [len(rs)]; the warning check
    ran once per full batch, for the batches [0 .. len(rs)/batch_size - 1]
    in order. *)
Theorem no_poi_batches {R : Type} (bs : nat) (rs : list R) :
  0 < bs ->
  exists m,
    fst (track_all bs [] rs) = map (chunk bs rs) (seq 0 m)
    /\ List.length rs <= m * bs < List.length rs + bs
    /\ snd (track_all bs [] rs) = seq 0 (List.length rs / bs).
Proof.
  intro Hbs; induction rs as [|r rs IH] using rev_ind.
  - exists 0; cbn; rewrite Nat.Div0.div_0_l; repeat split; lia.
  - destruct IH as [m [Ht [Hb Hc]]].
    rewrite track_all_snoc.
    destruct (track_all bs [] rs) as [t cs]; cbn [fst snd] in Ht, Hc; subst t cs.
    unfold track_no_poi_result; cbv zeta; rewrite total_chunks.
    rewrite length_app; cbn [List.length].
    assert (Hkeys := keys_chunks bs rs m).
    destruct (Nat.eq_dec (List.length rs) (m * bs)) as [Hfull|Hpart].
    + (* the last batch is full (or there is none): batch [m] opens *)
      replace (Nat.min (List.length rs) (m * bs) / bs) with m
        by (apply (Nat.div_unique _ _ _ 0); lia).
      assert (Hk : ~ In m (map fst (map (chunk bs rs) (seq 0 m))))
        by (rewrite Hkeys; intro H; apply in_seq in H; lia).
      rewrite (dict_get_notin m _ Hk), (dict_update_last m _ [] _ Hk), (dict_get_last m _ _ Hk).
      cbn [app List.length].
      exists (S m); split; [|split].
      * cbn [fst]; rewrite seq_S, map_app, chunks_snoc by lia; cbn [map].
        f_equal; f_equal; unfold chunk; f_equal.
        rewrite skipn_app, Hfull, skipn_all2 by lia.
        rewrite Nat.sub_diag; cbn [app skipn].
        destruct bs; [lia|]; cbn [firstn]; rewrite firstn_nil; reflexivity.
      * lia.
      * cbn [snd]; destruct (bs <=? 1) eqn:E.
        -- apply Nat.leb_le in E; replace bs with 1 by lia.
           rewrite !Nat.div_1_r, Nat.add_1_r, seq_S; f_equal; f_equal; nia.
        -- apply Nat.leb_gt in E; rewrite app_nil_r; f_equal.
           transitivity m.
           ++ symmetry; apply (Nat.div_unique _ _ _ 0); lia.
           ++ apply (Nat.div_unique _ _ _ 1); lia.
    + (* batch [m - 1] is not full yet *)
      destruct m as [|m']; [lia|].
      replace (Nat.min (List.length rs) (S m' * bs) / bs) with m'
        by (apply (Nat.div_unique _ _ _ (List.length rs - m' * bs)); nia).
      rewrite seq_S, map_app; cbn [map]; rewrite Nat.add_0_l.
      change (chunk bs rs m') with (m', firstn bs (skipn (m' * bs) rs)).
      assert (Hk' : ~ In m' (map fst (map (chunk bs rs) (seq 0 m'))))
        by (rewrite keys_chunks; intro H; apply in_seq in H; lia).
      rewrite (dict_get_last m' _ _ Hk'), (dict_update_last m' _ _ _ Hk'),
        (dict_get_last m' _ _ Hk').
      rewrite (firstn_all2 (skipn (m' * bs) rs)) by (rewrite length_skipn; nia).
      rewrite length_app, length_skipn; cbn [List.length].
      exists (S m'); split; [|split].
      * cbn [fst]; rewrite seq_S, map_app, chunks_snoc by nia; cbn [map].
        rewrite Nat.add_0_l; f_equal; f_equal; unfold chunk; f_equal.
        rewrite skipn_app; replace (m' * bs - List.length rs) with 0 by nia.
        cbn [skipn]; rewrite firstn_all2; [reflexivity|].
        rewrite length_app, length_skipn; cbn [List.length]; nia.
      * nia.
      * cbn [snd]; destruct (bs <=? List.length rs - m' * bs + 1) eqn:E.
        -- apply Nat.leb_le in E.
           replace ((List.length rs + 1) / bs) with (S m')
             by (apply (Nat.div_unique _ _ _ 0); nia).
           rewrite seq_S; f_equal; f_equal.
           symmetry; apply (Nat.div_unique _ _ _ (List.length rs - m' * bs)); nia.
        -- apply Nat.leb_gt in E; rewrite app_nil_r; f_equal.
           transitivity m'.
           ++ symmetry; apply (Nat.div_unique _ _ _ (List.length rs - m' * bs)); nia.
           ++ apply (Nat.div_unique _ _ _ (List.length rs + 1 - m' * bs)); nia.
Qed.

(** Seven results in batches of three: batches [[1;2;3]], [[4;5;6]],
    [[7]], the check ran for batches 0 and 1. *)
Lemma no_poi_batches_witness :
  track_all 3 [] [1; 2; 3; 4; 5; 6; 7]
  = ([(0, [1; 2; 3]); (1, [4; 5; 6]); (2, [7])], [0; 1])
  /\ exists m, fst (track_all 3 [] [1; 2; 3; 4; 5; 6; 7])
               = map (chunk 3 [1; 2; 3; 4; 5; 6; 7]) (seq 0 m)
       /\ List.length [1; 2; 3; 4; 5; 6; 7] <= m * 3 < List.length [1; 2; 3; 4; 5; 6; 7] + 3
       /\ snd (track_all 3 [] [1; 2; 3; 4; 5; 6; 7]) = seq 0 (List.length [1; 2; 3; 4; 5; 6; 7] / 3).
Proof.
  split; [reflexivity|].
  apply (no_poi_batches 3 [1; 2; 3; 4; 5; 6; 7]); lia.
Defined.

End NoPoiClaims.

(* ------------------------------------------------------------------ *)
(** ** Driver ids and usage dicts *)

Module DriverListFacts.
Import Pool.

Ltac split_all := repeat match goal with |- _ /\ _ => split end.

Lemma remove_all_In x d l : In x (remove_all d l) <-> In x l /\ x <> d.
Proof.
  unfold remove_all; rewrite filter_In, negb_true_iff, Nat.eqb_neq; reflexivity.
Qed.

Lemma remove_all_notin d l : ~ In d l -> remove_all d l = l.
Proof.
  induction l as [|x l IH]; intro Hn; [reflexivity|]; cbn.
  destruct (Nat.eqb_spec x d) as [->|Hne].
  - exfalso; apply Hn; left; reflexivity.
  - cbn; f_equal; apply IH; intro H; apply Hn; right; exact H.
Qed.

Lemma remove_all_length_le d l : List.length (remove_all d l) <= List.length l.
Proof.
  unfold remove_all; apply filter_length_le.
Qed.

Lemma remove_all_length_in d l :
  NoDup l -> In d l -> S (List.length (remove_all d l)) = List.length l.
Proof.
  induction l as [|x l IH]; intros Hnd Hin; [destruct Hin|].
  inversion Hnd as [|? ? Hx Hnd']; subst.
  unfold remove_all at 1; cbn [filter].
  destruct (Nat.eqb_spec x d) as [->|Hne]; cbn [negb List.length]; fold (remove_all d l).
  - rewrite remove_all_notin by exact Hx; reflexivity.
  - destruct Hin as [->|Hin]; [congruence|]; rewrite IH; auto.
Qed.

Lemma remove_all_nodup d l : NoDup l -> NoDup (remove_all d l).
Proof.
  unfold remove_all; apply NoDup_filter.
Qed.

Lemma keys_unassign d (c : list (driver * nat)) :
  map fst (unassign d c) = remove_all d (map fst c).
Proof.
  unfold unassign, remove_all; induction c as [|[k v] c IH]; [reflexivity|]; cbn.
  destruct (Nat.eqb k d); cbn; rewrite IH; reflexivity.
Qed.

Lemma keys_assign d v (c : list (driver * nat)) :
  map fst (assign d v c) = d :: remove_all d (map fst c).
Proof.
  unfold assign; cbn; f_equal; apply keys_unassign.
Qed.

Lemma lookup_unassign d d' (c : list (driver * nat)) :
  lookup d' (unassign d c) = if Nat.eqb d d' then None else lookup d' c.
Proof.
  unfold unassign; induction c as [|[k v] c IH]; cbn [filter lookup fst];
    [destruct (Nat.eqb d d'); reflexivity|].
  destruct (Nat.eqb_spec k d) as [->|Hkd]; cbn [negb lookup].
  - rewrite IH; destruct (Nat.eqb d d'); reflexivity.
  - destruct (Nat.eqb_spec k d') as [->|Hkd'].
    + destruct (Nat.eqb_spec d d') as [->|]; [congruence|reflexivity].
    + exact IH.
Qed.

Lemma lookup_assign d v d' (c : list (driver * nat)) :
  lookup d' (assign d v c) = if Nat.eqb d d' then Some v else lookup d' c.
Proof.
  unfold assign; cbn [lookup]; destruct (Nat.eqb d d') eqn:E; [reflexivity|].
  fold (unassign d c); rewrite lookup_unassign, E; reflexivity.
Qed.

Lemma lookup_keys d n (c : list (driver * nat)) :
  lookup d c = Some n -> In d (map fst c).
Proof.
  induction c as [|[k v] c IH]; cbn; [discriminate|].
  destruct (Nat.eqb_spec k d) as [->|]; [left; reflexivity|].
  intro H; right; exact (IH H).
Qed.

Lemma lookup_none d (c : list (driver * nat)) :
  ~ In d (map fst c) -> lookup d c = None.
Proof.
  induction c as [|[k v] c IH]; cbn; intro Hn; [reflexivity|].
  destruct (Nat.eqb_spec k d) as [->|]; [exfalso; apply Hn; left; reflexivity|].
  apply IH; intro H; apply Hn; right; exact H.
Qed.

Lemma mem_In d l : mem d l = true <-> In d l.
Proof.
  unfold mem; rewrite existsb_exists; split.
  - intros [x [Hx E]]; apply Nat.eqb_eq in E; subst; exact Hx.
  - intro H; exists d; split; [exact H | apply Nat.eqb_refl].
Qed.

End DriverListFacts.

(* ------------------------------------------------------------------ *)
(** ** [HybridDriverPool]: bounded under any client calls *)

Module HybridPoolFacts.
Import Pool HybridPool HybridOps DriverListFacts.

Definition hinv (m mu : nat) (s : hpool) : Prop :=
  h_max_drivers s = m
  /\ max_usage_per_driver s = mu
  /\ NoDup (map fst (usage_count s))
  /\ incl (h_live s) (map fst (usage_count s))
  /\ NoDup (h_live s)
  /\ (forall d, In d (map fst (usage_count s)) -> d < h_next_id s)
  /\ List.length (usage_count s) <= m
  /\ (forall d n, lookup d (usage_count s) = Some n -> 1 <= n <= mu).

Section Bounds.
Variables m mu : nat.
Hypothesis Hmu : 0 < mu.

Lemma hinv_init : hinv m mu (h_init m mu).
Proof.
  unfold hinv, h_init; cbn; split_all.
  all: try apply NoDup_nil; try (intros x []; fail); try lia.
  intros x k H; discriminate.
Qed.

Lemma hinv_drop s rest d : hinv m mu s -> hinv m mu (h_drop s rest d).
Proof.
  intros (Hm & Hu & Hk & Hl & Hnd & Hn & Hlen & Hv); unfold h_drop.
  (unfold hinv; split_all); cbn [h_max_drivers max_usage_per_driver usage_count h_live h_next_id];
    try assumption; rewrite ?keys_unassign.
  - apply remove_all_nodup; exact Hk.
  - intros x Hx; apply remove_all_In in Hx as [Hx Hne]; apply remove_all_In; auto.
  - apply remove_all_nodup; exact Hnd.
  - intros x Hx; apply remove_all_In in Hx as [Hx _]; auto.
  - rewrite <- (length_map fst), keys_unassign.
    pose proof (remove_all_length_le d (map fst (usage_count s))).
    rewrite length_map in H; lia.
  - intros x n Hx; rewrite lookup_unassign in Hx; destruct (Nat.eqb d x);
      [discriminate | exact (Hv x n Hx)].
Qed.

Lemma hinv_drain fuel s : hinv m mu s -> hinv m mu (snd (h_drain fuel s)).
Proof.
  revert s; induction fuel as [|f fuel IH]; intros s H; cbn [h_drain]; [exact H|].
  destruct (h_free s) as [|d rest]; [exact H|].
  set (n := match lookup d (usage_count s) with Some n => n | None => 0 end).
  destruct ((n <? max_usage_per_driver s) && h_healthy s d) eqn:E;
    [|apply IH, hinv_drop; exact H].
  apply andb_true_iff in E as [En Eh]; apply Nat.ltb_lt in En.
  unfold h_healthy in Eh; apply andb_true_iff in Eh as [Eh _]; apply mem_In in Eh.
  destruct H as (Hm & Hu & Hk & Hl & Hnd & Hn & Hlen & Hv).
  assert (Hd : In d (map fst (usage_count s))) by (apply Hl; exact Eh).
  cbn [snd]; (unfold hinv; split_all); cbn [h_max_drivers max_usage_per_driver usage_count h_live h_next_id];
    try assumption; rewrite ?keys_assign.
  - constructor; [intro H; apply remove_all_In in H as [_ H]; apply H; reflexivity|].
    apply remove_all_nodup; exact Hk.
  - intros x Hx; destruct (Nat.eq_dec x d) as [->|Hne]; [left; reflexivity|].
    right; apply remove_all_In; auto.
  - intros x [<-|Hx]; [auto|]; apply remove_all_In in Hx as [Hx _]; auto.
  - rewrite <- (length_map fst), keys_assign; cbn [List.length].
    rewrite remove_all_length_in by assumption; rewrite length_map; exact Hlen.
  - intros x k Hx; rewrite lookup_assign in Hx; destruct (Nat.eqb d x);
      [injection Hx as <-; lia | exact (Hv x k Hx)].
Qed.

Lemma hinv_get s : hinv m mu s -> hinv m mu (snd (h_get_driver s)).
Proof.
  intro H; unfold h_get_driver.
  pose proof (hinv_drain (h_free s) s H) as H'.
  destruct (h_drain (h_free s) s) as [[d|] s']; [exact H'|].
  cbn [snd] in H'.
  destruct (List.length (usage_count s') <? h_max_drivers s') eqn:E; [|exact H'].
  apply Nat.ltb_lt in E.
  destruct H' as (Hm & Hu & Hk & Hl & Hnd & Hn & Hlen & Hv).
  assert (Hfresh : ~ In (h_next_id s') (map fst (usage_count s')))
    by (intro Hx; apply Hn in Hx; lia).
  cbn [snd]; (unfold hinv; split_all); cbn [h_max_drivers max_usage_per_driver usage_count h_live h_next_id];
    try assumption; rewrite ?keys_assign, ?remove_all_notin by exact Hfresh.
  - constructor; assumption.
  - intros x [<-|Hx]; [left; reflexivity | right; apply Hl; exact Hx].
  - constructor; [intro Hx; apply Hfresh, Hl, Hx | exact Hnd].
  - intros x [<-|Hx]; [lia|]; apply Hn in Hx; lia.
  - rewrite <- (length_map fst), keys_assign, remove_all_notin by exact Hfresh.
    cbn [List.length]; rewrite length_map; lia.
  - intros x k Hx; rewrite lookup_assign in Hx; destruct (Nat.eqb (h_next_id s') x);
      [injection Hx as <-; lia | exact (Hv x k Hx)].
Qed.

Lemma hinv_exec s o : hinv m mu s -> hinv m mu (h_exec s o).
Proof.
  intro H; destruct o as [|d|d]; cbn [h_exec].
  - apply hinv_get; exact H.
  - destruct H as (Hm & Hu & Hk & Hl & Hnd & Hn & Hlen & Hv); unfold h_return.
    destruct (lookup d (usage_count s)); (unfold hinv; split_all); cbn; try assumption.
    + intros x Hx; apply remove_all_In in Hx as [Hx _]; auto.
    + apply remove_all_nodup; exact Hnd.
  - destruct H as (Hm & Hu & Hk & Hl & Hnd & Hn & Hlen & Hv); unfold h_crash.
    (unfold hinv; split_all); cbn; assumption.
Qed.

Lemma hinv_run s ops : hinv m mu s -> hinv m mu (h_run s ops).
Proof.
  unfold h_run; revert s; induction ops as [|o ops IH]; intros s H; cbn; [exact H|].
  apply IH, hinv_exec; exact H.
Qed.

End Bounds.

End HybridPoolFacts.

Module HybridPoolClaims.
Import Pool HybridPool HybridOps DriverListFacts HybridPoolFacts.

(** [HybridDriverPool] with [max_usage_per_driver > 0], under any
    sequence of [get_driver], [return_driver] (also of a driver
    returned twice or unknown) and Chrome crashes: the running drivers
    are distinct, each is a key of [usage_count], [len(usage_count)]
    never exceeds [max_drivers] (so neither does the number of running
    Chrome drivers), and every usage count stays between 1 and
    [max_usage_per_driver]. *)
Theorem hybrid_pool_bounded (max_drivers max_usage : nat) (ops : list hop) :
  0 < max_usage ->
  NoDup (h_live (h_run (h_init max_drivers max_usage) ops))
  /\ List.length (h_live (h_run (h_init max_drivers max_usage) ops))
     <= List.length (usage_count (h_run (h_init max_drivers max_usage) ops))
  /\ List.length (usage_count (h_run (h_init max_drivers max_usage) ops)) <= max_drivers
  /\ (forall d n, lookup d (usage_count (h_run (h_init max_drivers max_usage) ops)) = Some n ->
        1 <= n <= max_usage).
Proof.
  intro Hmu.
  destruct (hinv_run max_drivers max_usage Hmu (h_init max_drivers max_usage) ops
              (hinv_init max_drivers max_usage Hmu))
    as (Hm & Hu & Hk & Hl & Hnd & Hn & Hlen & Hv).
  split; [exact Hnd|]; split; [|split; [exact Hlen | exact Hv]].
  rewrite <- (length_map fst (usage_count _)); apply NoDup_incl_length; assumption.
Qed.

(** Two drivers, each usable twice, with a crash and a double return. *)
Lemma hybrid_pool_bounded_witness :
  let ops := [HAcquire; HAcquire; HReturn 0; HReturn 0; HAcquire; HAcquire;
              HCrash 1; HReturn 1; HAcquire; HAcquire; HAcquire] in
  NoDup (h_live (h_run (h_init 2 2) ops))
  /\ List.length (h_live (h_run (h_init 2 2) ops))
     <= List.length (usage_count (h_run (h_init 2 2) ops))
  /\ List.length (usage_count (h_run (h_init 2 2) ops)) <= 2
  /\ (forall d n, lookup d (usage_count (h_run (h_init 2 2) ops)) = Some n -> 1 <= n <= 2).
Proof.
  intro ops; apply (hybrid_pool_bounded 2 2 ops); lia.
Defined.

End HybridPoolClaims.

(* ------------------------------------------------------------------ *)
(** ** [ChromeDriverPool]: bounded while retired and restarted drivers
       are running ones *)

Module PoolBoundFacts.
Import Pool DriverListFacts.

Definition pinv (n : nat) (s : pool) : Prop :=
  max_drivers s = n
  /\ NoDup (live s)
  /\ (forall d, In d (live s) -> d < next_id s)
  /\ List.length (live s) <= total_created s
  /\ total_created s <= n.

(** The calls a client may make in state [s]: a retired or restarted
    driver is a running one. *)
Definition targets_live (s : pool) (o : op) : Prop :=
  match o with
  | Retire d | Restart d _ => In d (live s)
  | _ => True
  end.

Lemma pinv_quit n s d : pinv n s -> pinv n (quit s d).
Proof.
  intros (Hm & Hnd & Hn & Hl & Ht); unfold quit.
  (unfold pinv; split_all); cbn; try assumption.
  - apply remove_all_nodup; exact Hnd.
  - intros x Hx; apply remove_all_In in Hx as [Hx _]; auto.
  - pose proof (remove_all_length_le d (live s)); lia.
Qed.

Lemma pinv_drain n fuel s : pinv n s -> pinv n (snd (drain_free fuel s)).
Proof.
  revert s; induction fuel as [|f fuel IH]; intros s H; cbn [drain_free]; [exact H|].
  destruct (free s) as [|d rest]; [exact H|].
  assert (H' : pinv n (with_free s rest))
    by (destruct H as (Hm & Hnd & Hn & Hl & Ht); (unfold pinv; split_all); cbn; assumption).
  destruct (healthy (with_free s rest) d); [exact H'|].
  apply IH, pinv_quit; exact H'.
Qed.

Lemma pinv_create n s :
  pinv n s -> total_created s < max_drivers s ->
  pinv n (with_total (snd (create s)) (S (total_created s))).
Proof.
  intros (Hm & Hnd & Hn & Hl & Ht) Hlt; (unfold pinv; split_all); cbn; try assumption; try lia.
  - constructor; [intro Hx; apply Hn in Hx; lia | exact Hnd].
  - intros x [<-|Hx]; [lia|]; apply Hn in Hx; lia.
Qed.

Lemma pinv_exec n s o : pinv n s -> targets_live s o -> pinv n (exec s o).
Proof.
  intros H Ho; destruct o as [|d|d|d|d w|d]; cbn [exec].
  - unfold get_driver.
    pose proof (pinv_drain n (free s) s H) as H'.
    destruct (drain_free (free s) s) as [[d|] s']; [exact H'|].
    cbn [snd] in H' |- *.
    destruct (total_created s' <? max_drivers s') eqn:E; [|exact H'].
    apply Nat.ltb_lt in E.
    exact (pinv_create n s' H' E).
  - unfold return_driver; destruct (healthy s d); [|apply pinv_quit; exact H].
    destruct H as (Hm & Hnd & Hn & Hl & Ht); (unfold pinv; split_all); cbn [live total_created max_drivers next_id with_total with_free with_counts quit create fst snd List.length]; assumption.
  - cbn in Ho; destruct H as (Hm & Hnd & Hn & Hl & Ht); unfold release_driver.
    pose proof (remove_all_length_in d (live s) Hnd Ho).
    (unfold pinv; split_all); cbn [live total_created max_drivers next_id with_total with_free with_counts quit create fst snd List.length]; try assumption; try lia.
    + apply remove_all_nodup; exact Hnd.
    + intros x Hx; apply remove_all_In in Hx as [Hx _]; auto.
  - unfold increment_driver_usage; destruct H as (Hm & Hnd & Hn & Hl & Ht).
    destruct (lookup d (driver_usage_count s)); (unfold pinv; split_all); cbn [live total_created max_drivers next_id with_total with_free with_counts quit create fst snd List.length]; assumption.
  - cbn in Ho; destruct H as (Hm & Hnd & Hn & Hl & Ht); unfold restart_driver.
    pose proof (remove_all_length_in d (live s) Hnd Ho).
    cbn [quit with_counts total_created max_drivers].
    destruct (total_created s <? max_drivers s) eqn:E.
    + apply Nat.ltb_lt in E; cbn [create live next_id].
      assert (Hq : pinv n (mkPool (max_drivers s) (free s) (total_created s)
                     (driver_usage_count s) (driver_max_tasks s)
                     (next_id s :: remove_all d (live s)) (broken s) (S (next_id s)))).
      { (unfold pinv; split_all); cbn [live total_created max_drivers next_id with_total with_free with_counts quit create fst snd List.length]; try assumption; try lia.
        - constructor; [|apply remove_all_nodup; exact Hnd].
          intro Hx; apply remove_all_In in Hx as [Hx _]; apply Hn in Hx; lia.
        - intros x [<-|Hx]; [lia|]; apply remove_all_In in Hx as [Hx _]; apply Hn in Hx; lia. }
      destruct w as [[|w]|]; cbn [snd]; exact Hq.
    + cbn [snd]; (unfold pinv; split_all); cbn [live total_created max_drivers next_id with_total with_free with_counts quit create fst snd List.length]; try assumption; try lia.
      * apply remove_all_nodup; exact Hnd.
      * intros x Hx; apply remove_all_In in Hx as [Hx _]; auto.
  - destruct H as (Hm & Hnd & Hn & Hl & Ht); (unfold pinv; split_all); cbn [live total_created max_drivers next_id with_total with_free with_counts quit create fst snd List.length]; assumption.
Qed.

Lemma pinv_run n s ops :
  pinv n s ->
  (forall i o, nth_error ops i = Some o -> targets_live (run s (firstn i ops)) o) ->
  pinv n (run s ops).
Proof.
  unfold run; revert s; induction ops as [|o ops IH]; intros s H Hops; cbn; [exact H|].
  apply IH.
  - apply pinv_exec; [exact H|]; exact (Hops 0 o eq_refl).
  - intros i o' Hi; exact (Hops (S i) o' Hi).
Qed.

End PoolBoundFacts.

Module PoolBoundClaims.
Import Pool DriverListFacts PoolBoundFacts.

(** [ChromeDriverPool(max_drivers)] under any sequence of
    [get_driver], [return_driver], [increment_driver_usage] and Chrome
    crashes, and of [release_driver] and [restart_driver] calls that
    each name a driver still running at that point: the running Chrome
    drivers are distinct and never more than [total_created], which
    never exceeds [max_drivers]. *)
Theorem pool_live_bounded (n : nat) (ops : list op) :
  (forall i o, nth_error ops i = Some o ->
     match o with
     | Retire d | Restart d _ => In d (live (run (init n) (firstn i ops)))
     | _ => True
     end) ->
  NoDup (live (run (init n) ops))
  /\ live_count (run (init n) ops) <= total_created (run (init n) ops) <= n.
Proof.
  intro Hops.
  assert (H0 : pinv n (init n))
    by (unfold pinv, init; cbn; split_all;
        try reflexivity; try apply NoDup_nil; try (intros x []; fail); lia).
  destruct (pinv_run n (init n) ops H0 Hops) as (Hm & Hnd & Hn & Hl & Ht).
  split; [exact Hnd|]; unfold live_count; lia.
Qed.

(** Two drivers: acquire both, retire driver 0, acquire a new one,
    restart driver 1 on a full pool, crash driver 2 and acquire. *)
Lemma pool_live_bounded_witness :
  let ops := [Acquire; Acquire; Retire 0; Acquire; Restart 1 (Some 1); Crash 2; Acquire] in
  NoDup (live (run (init 2) ops))
  /\ live_count (run (init 2) ops) <= total_created (run (init 2) ops) <= 2.
Proof.
  intro ops; apply (pool_live_bounded 2 ops).
  intros i o H.
  do 7 (destruct i as [|i]; [cbn in H; injection H as <-; vm_compute; auto 10|]).
  cbn in H; destruct i; discriminate.
Defined.

End PoolBoundClaims.

(* ------------------------------------------------------------------ *)
(** ** Progress counters of the simple crawler *)

Module CounterFacts.
Import Dispatch.

Definition cinv (s : state) : Prop :=
  total_tasks s = processed_tasks s + List.length (task_queue s)
                  + List.length (retry_queue s) + List.length (result_queue s)
  /\ processed_tasks s = success_count s + error_count s
  /\ processed_tasks s = List.length (outcomes s).

Section Steps.
Variable crawl_poi_info : string -> bool -> crawl_result.

Lemma cinv_step a s : cinv s -> cinv (step crawl_poi_info a s).
Proof.
  intros (H1 & H2 & H3); destruct a; cbn [step].
  - unfold worker_step, next_task.
    destruct (retry_queue s) as [|t rq] eqn:Er;
      [destruct (task_queue s) as [|t tq] eqn:Et|];
      [cbn; unfold cinv; rewrite Er, Et; cbn [List.length] in *; repeat split; lia| |];
      unfold cinv, put; cbn; rewrite ?Er, ?Et in *; rewrite length_app; cbn in *;
      repeat split; lia.
  - unfold processor_step.
    destruct (result_queue s) as [|r rest] eqn:Eq; [cbn; unfold cinv; rewrite Eq; cbn [List.length] in *; repeat split; lia|].
    cbn [List.length] in H1.
    destruct (r_original_address r) as [o|];
      [destruct (should_retry r (retry_cache s))|];
      unfold cinv, put; cbn; rewrite !length_app; cbn;
      destruct (success r); repeat split; lia.
Qed.

Lemma cinv_run sched s : cinv s -> cinv (run crawl_poi_info sched s).
Proof.
  revert s; induction sched as [|a sched IH]; intros s H; cbn; [exact H|].
  apply IH, cinv_step; exact H.
Qed.

End Steps.

End CounterFacts.

Module CounterClaims.
Import Dispatch CounterFacts.

(** The counters of the simple crawler, under any interleaving of the
    worker and result threads from a fresh start: [total_tasks] is
    [processed_tasks] plus the tasks and results still queued (a retry
    adds one to both sides), [processed_tasks = success_count +
    error_count] is the number of results consumed, so the reported
    progress never exceeds 100% and reaches it exactly when every
    queue is empty. *)
Theorem progress_counters (crawl_poi_info : string -> bool -> crawl_result)
    (addresses : list task) (sched : list actor) :
  let s := run crawl_poi_info sched (start addresses) in
  total_tasks s = processed_tasks s + List.length (task_queue s)
                  + List.length (retry_queue s) + List.length (result_queue s)
  /\ processed_tasks s = success_count s + error_count s
  /\ processed_tasks s = List.length (outcomes s)
  /\ processed_tasks s <= total_tasks s
  /\ (processed_tasks s = total_tasks s <-> drained s = true).
Proof.
  intro s.
  assert (H0 : cinv (start addresses)) by (unfold cinv; cbn; repeat split; lia).
  destruct (cinv_run crawl_poi_info sched _ H0) as (H1 & H2 & H3); fold s in H1, H2, H3.
  split; [exact H1|]; split; [exact H2|]; split; [exact H3|]; split; [lia|].
  unfold drained.
  destruct (task_queue s), (retry_queue s), (result_queue s); cbn in H1 |- *;
    split; intro H; try lia; try discriminate; reflexivity.
Qed.

End CounterClaims.
